(** * cxxstreams: pull-based lazy streams

    A shallow embedding of the streamable sources and of the terminal
    operations of the pipeline wrapper, followed by the properties of the
    natural-language specification that were checked against them.

    Conventions of the embedding:
    - a streamable object is a state; calling [next] on it returns the
      optional element together with the state the object is left in;
    - [std::optional<T>] and [kstd::Option<T>] are [option T]
      ([Some] is Present, [None] is Absent);
    - [size_t] is [N], every increment written with its wrap-around;
    - a [while] loop whose trip count depends on the stream takes a fuel
      argument and returns [None] when the fuel runs out before the loop
      leaves. *)

From stdpp Require Import base option list gmap.
From Stdlib Require Import ZArith NArith Lia.

Local Open Scope N_scope.

(** ** Machine integers *)

(** Width of [size_t] on the LP64 targets the library is built for. *)
Definition SIZE_WIDTH : N := 64.

Definition SIZE_MODULUS : N := 2 ^ SIZE_WIDTH.

(** [++x] and [x++] on a [size_t]. *)
Definition size_incr (x : N) : N := (x + 1) mod SIZE_MODULUS.

(** ** The streamable concept *)

(** [concepts::Streamable<S>]: the type has a member [next()] returning an
    optional element.  The concept is purely structural; the exhaustion
    contract of the specification is the separate predicate
    [stays_exhausted] below. *)
Class Streamable (IMPL T : Type) := next : IMPL → option T * IMPL.
#[global] Hint Mode Streamable ! - : typeclass_instances.
#[global] Arguments next {IMPL T _} self : assert.

(** The outcome of [n] successive calls of [next], oldest first, and the
    state after the last of them. *)
Fixpoint pulls {IMPL T : Type} `{!Streamable IMPL T} (n : nat) (s : IMPL)
    : list (option T) * IMPL :=
  match n with
  | O => ([], s)
  | S n' =>
      let '(element, s1) := next s in
      let '(rest, s2) := pulls n' s1 in
      (element :: rest, s2)
  end.

(** [yields s l s']: pulled from state [s], the stream produces the elements
    of [l] in order and then Absent, which leaves it in state [s']. *)
Definition yields {IMPL T : Type} `{!Streamable IMPL T}
    (s : IMPL) (l : list T) (s' : IMPL) : Prop :=
  pulls (S (length l)) s = ((Some <$> l) ++ [None], s').

(** The exhaustion contract of the specification: a call that follows one
    that returned Absent returns Absent again. *)
Definition stays_exhausted (IMPL : Type) {T : Type} `{!Streamable IMPL T} : Prop :=
  ∀ s : IMPL, (next s).1 = None → (next (next s).2).1 = None.

(** ** cxxs/counting_streamable.hpp *)

Module cxxs.

Record CountingStreamable (T : Type) : Type := mkCountingStreamable {
  _value : T;
  _max_count : N;
  _count : N
}.
Arguments mkCountingStreamable {T} _ _ _.
Arguments _value {T} _.
Arguments _max_count {T} _.
Arguments _count {T} _.

(** The constructor [CountingStreamable(value, max_count)]. *)
Definition make {T : Type} (value : T) (max_count : N) : CountingStreamable T :=
  {| _value := value; _max_count := max_count; _count := 0 |}.

(** [CountingStreamable::next]. *)
Definition CountingStreamable_next {T : Type} (self : CountingStreamable T)
    : option T * CountingStreamable T :=
  if _count self =? _max_count self then (None, self)
  else (Some (_value self),
        {| _value := _value self;
           _max_count := _max_count self;
           _count := size_incr (_count self) |}).

#[global] Instance CountingStreamable_streamable {T : Type}
    : Streamable (CountingStreamable T) T := CountingStreamable_next.

End cxxs.

(** ** The iterator-bound supplier *)

Module streams.

(** An iterator is modelled by its position in the container it ranges
    over; the container itself is not owned by the supplier and is passed
    to [get_next]. *)
Record RefSupplier : Type := mkRefSupplier {
  _current : nat;
  _end : nat
}.

(** The constructor [RefSupplier(begin, end)]. *)
Definition make (begin end_ : nat) : RefSupplier :=
  {| _current := begin; _end := end_ |}.

(** [RefSupplier::get_next].  The outer [None] stands for the undefined
    behaviour of dereferencing an iterator that is outside the
    container. *)
Definition get_next {T : Type} (container : list T) (self : RefSupplier)
    : option (option T * RefSupplier) :=
  if Nat.eqb (_current self) (_end self) then Some (None, self)
  else
    match container !! _current self with
    | Some x =>
        Some (Some x, {| _current := S (_current self); _end := _end self |})
    | None => None
    end.

(** [n] successive calls of [get_next]. *)
Fixpoint get_pulls {T : Type} (container : list T) (n : nat) (self : RefSupplier)
    : option (list (option T) * RefSupplier) :=
  match n with
  | O => Some ([], self)
  | S n' =>
      '(element, s1) ← get_next container self;
      '(rest, s2) ← get_pulls container n' s1;
      Some (element :: rest, s2)
  end.

(** ** kstd/streams/stream.hpp: the pipeline wrapper *)

(** [kstd::concepts::Addable<T>]: the element type has [operator+]. *)
Class Addable (T : Type) := add : T → T → T.

(** [kstd::concepts::LessThanComparable<T>]: the element type has
    [operator<]. *)
Class LessThanComparable (T : Type) := less : T → T → bool.

(** Modelled from the spec: the chaining stage of chaining_stream.hpp,
    which is not part of the sources at hand.  It owns two streamables
    and exhausts the first entirely, in order, before pulling from the
    second: every call pulls the first streamable and falls through to
    the second one when the first is Absent. *)
Record ChainingStream (S1 S2 : Type) : Type := mkChainingStream {
  chain_first : S1;
  chain_second : S2
}.
Arguments mkChainingStream {S1 S2} _ _.
Arguments chain_first {S1 S2} _.
Arguments chain_second {S1 S2} _.

(** Modelled from the spec: [ChainingStream::next], see [ChainingStream]. *)
Definition ChainingStream_next {S1 S2 T : Type}
    `{!Streamable S1 T} `{!Streamable S2 T} (self : ChainingStream S1 S2)
    : option T * ChainingStream S1 S2 :=
  let '(element, first) := next (chain_first self) in
  match element with
  | Some _ => (element, mkChainingStream first (chain_second self))
  | None =>
      let '(element', second) := next (chain_second self) in
      (element', mkChainingStream first second)
  end.

#[global] Instance ChainingStream_streamable {S1 S2 T : Type}
    `{!Streamable S1 T} `{!Streamable S2 T}
    : Streamable (ChainingStream S1 S2) T := ChainingStream_next.

(** Modelled from the spec: the basic pipeline of basic_stream.hpp, which
    is not part of the sources at hand.  The pipeline wrapper delegates
    storage to the wrapped streamable, member [_streamable] of [Stream],
    and its [next] is the wrapped streamable's. *)
Record BasicStream (S0 : Type) : Type := mkBasicStream {
  _streamable : S0
}.
Arguments mkBasicStream {S0} _.
Arguments _streamable {S0} _.

(** Modelled from the spec: [BasicStream::next], see [BasicStream]. *)
Definition BasicStream_next {S0 T : Type} `{!Streamable S0 T}
    (self : BasicStream S0) : option T * BasicStream S0 :=
  let '(element, streamable) := next (_streamable self) in
  (element, mkBasicStream streamable).

#[global] Instance BasicStream_streamable {S0 T : Type} `{!Streamable S0 T}
    : Streamable (BasicStream S0) T := BasicStream_next.

(** The entry point [counting(value, max_count)]. *)
Definition counting {T : Type} (value : T) (max_count : N)
    : BasicStream (cxxs.CountingStreamable T) :=
  mkBasicStream (cxxs.make value max_count).

(** The members of [Stream<T, S, IMPL>].  [get_self()] is the object the
    member is called on, so every member takes the implementation [self]
    and, when it pulls, returns the state it leaves [self] in. *)
Section Stream.
Context {IMPL T : Type} `{!Streamable IMPL T}.

(** [Stream::chain]. *)
Definition chain {S2 : Type} (self : IMPL) (other : S2) : ChainingStream IMPL S2 :=
  mkChainingStream self other.

(** [Stream::pre_chain]. *)
Definition pre_chain {S2 : Type} (self : IMPL) (other : S2) : ChainingStream S2 IMPL :=
  mkChainingStream other self.

(** The [for] loop of [Stream::skip], with [remaining] = [count - i]
    iterations still to run. *)
Fixpoint skip_loop (remaining : nat) (self : IMPL) : IMPL :=
  match remaining with
  | O => self
  | S remaining' =>
      let '(element, self') := next self in
      match element with
      | None => self'
      | Some _ => skip_loop remaining' self'
      end
  end.

(** [Stream::skip]. *)
Definition skip (count : N) (self : IMPL) : IMPL :=
  skip_loop (N.to_nat count) self.

(** [Stream::find_first]. *)
Definition find_first (self : IMPL) : option T * IMPL := next self.

(** The [while] loop of [Stream::find_last]. *)
Fixpoint find_last_loop (fuel : nat) (element : option T) (self : IMPL)
    : option (option T * IMPL) :=
  match element with
  | None => Some (element, self)
  | Some _ =>
      match fuel with
      | O => None
      | S fuel' =>
          let '(next_, self') := next self in
          match next_ with
          | None => Some (element, self')
          | Some _ => find_last_loop fuel' next_ self'
          end
      end
  end.

(** [Stream::find_last]. *)
Definition find_last (fuel : nat) (self : IMPL) : option (option T * IMPL) :=
  let '(element, self') := next self in
  find_last_loop fuel element self'.

(** The [while] loop of [Stream::reduce]. *)
Fixpoint reduce_loop (fuel : nat) (function : T → T → T) (acc : T)
    (next_ : option T) (self : IMPL) : option (T * IMPL) :=
  match next_ with
  | None => Some (acc, self)
  | Some x =>
      match fuel with
      | O => None
      | S fuel' =>
          let '(next', self') := next self in
          reduce_loop fuel' function (function acc x) next' self'
      end
  end.

(** [Stream::reduce]. *)
Definition reduce (fuel : nat) (function : T → T → T) (self : IMPL)
    : option (option T * IMPL) :=
  let '(element, self1) := next self in
  match element with
  | None => Some (None, self1)
  | Some first =>
      let '(next_, self2) := next self1 in
      '(acc, self3) ← reduce_loop fuel function first next_ self2;
      Some (Some acc, self3)
  end.

(** [Stream::sum]. *)
Definition sum `{!Addable T} (fuel : nat) (self : IMPL) : option (option T * IMPL) :=
  reduce fuel (λ a b, add a b) self.

(** The [while] loop of [Stream::min]. *)
Fixpoint min_loop `{!LessThanComparable T} (fuel : nat) (result : T)
    (element : option T) (self : IMPL) : option (T * IMPL) :=
  match element with
  | None => Some (result, self)
  | Some value =>
      match fuel with
      | O => None
      | S fuel' =>
          let result' := if less value result then value else result in
          let '(element', self') := next self in
          min_loop fuel' result' element' self'
      end
  end.

(** [Stream::min]. *)
Definition min `{!LessThanComparable T} (fuel : nat) (self : IMPL)
    : option (option T * IMPL) :=
  let '(element, self1) := next self in
  match element with
  | None => Some (None, self1)
  | Some first =>
      let '(element', self2) := next self1 in
      '(result, self3) ← min_loop fuel first element' self2;
      Some (Some result, self3)
  end.

(** The [while] loop of [Stream::max]. *)
Fixpoint max_loop `{!LessThanComparable T} (fuel : nat) (result : T)
    (element : option T) (self : IMPL) : option (T * IMPL) :=
  match element with
  | None => Some (result, self)
  | Some value =>
      match fuel with
      | O => None
      | S fuel' =>
          let result' := if less result value then value else result in
          let '(element', self') := next self in
          max_loop fuel' result' element' self'
      end
  end.

(** [Stream::max]. *)
Definition max `{!LessThanComparable T} (fuel : nat) (self : IMPL)
    : option (option T * IMPL) :=
  let '(element, self1) := next self in
  match element with
  | None => Some (None, self1)
  | Some first =>
      let '(element', self2) := next self1 in
      '(result, self3) ← max_loop fuel first element' self2;
      Some (Some result, self3)
  end.

(** The [while] loop of [Stream::count]. *)
Fixpoint count_loop (fuel : nat) (result : N) (element : option T) (self : IMPL)
    : option (N * IMPL) :=
  match element with
  | None => Some (result, self)
  | Some _ =>
      match fuel with
      | O => None
      | S fuel' =>
          let '(element', self') := next self in
          count_loop fuel' (size_incr result) element' self'
      end
  end.

(** [Stream::count]. *)
Definition count (fuel : nat) (self : IMPL) : option (N * IMPL) :=
  let '(element, self') := next self in
  count_loop fuel 0 element self'.

(** The [while] loop of [Stream::collect]; [push_back] appends. *)
Fixpoint collect_loop (fuel : nat) (result : list T) (element : option T)
    (self : IMPL) : option (list T * IMPL) :=
  match element with
  | None => Some (result, self)
  | Some x =>
      match fuel with
      | O => None
      | S fuel' =>
          let '(element', self') := next self in
          collect_loop fuel' (result ++ [x]) element' self'
      end
  end.

(** [Stream::collect]. *)
Definition collect (fuel : nat) (self : IMPL) : option (list T * IMPL) :=
  let '(element, self') := next self in
  collect_loop fuel [] element self'.

(** The [while] loop of [Stream::collect_sequence]: the sequence is a
    list of [EXTENT] elements and [result[index] = x] the update at
    position [index], which the loop condition keeps in range. *)
Fixpoint collect_sequence_loop (fuel : nat) (EXTENT : N) (result : list T)
    (index : N) (element : option T) (self : IMPL) : option (list T * IMPL) :=
  match element with
  | None => Some (result, self)
  | Some x =>
      if index <? EXTENT then
        match fuel with
        | O => None
        | S fuel' =>
            let result' := <[N.to_nat index := x]> result in
            let '(element', self') := next self in
            collect_sequence_loop fuel' EXTENT result' (size_incr index) element' self'
        end
      else Some (result, self)
  end.

(** [Stream::collect_sequence<EXTENT, SEQ>]; [fresh] is the
    default-constructed [SEQ<T, EXTENT>] the member starts from. *)
Definition collect_sequence (fuel : nat) (EXTENT : N) (fresh : list T) (self : IMPL)
    : option (list T * IMPL) :=
  let '(element, self') := next self in
  collect_sequence_loop fuel EXTENT fresh 0 element self'.

(** The [while] loop of [Stream::collect_to_memory]: the memory that
    [elements] points into is a finite map from the offset to the
    object stored there, and [*(elements + index) = x] the store at
    offset [index]. *)
Fixpoint collect_to_memory_loop (fuel : nat) (elements : gmap N T) (max_count : N)
    (index : N) (element : option T) (self : IMPL) : option (gmap N T * IMPL) :=
  match element with
  | None => Some (elements, self)
  | Some x =>
      if index <? max_count then
        match fuel with
        | O => None
        | S fuel' =>
            let elements' := <[index := x]> elements in
            let '(element', self') := next self in
            collect_to_memory_loop fuel' elements' max_count (size_incr index)
              element' self'
        end
      else Some (elements, self)
  end.

(** [Stream::collect_to_memory]. *)
Definition collect_to_memory (fuel : nat) (elements : gmap N T) (max_count : N)
    (self : IMPL) : option (gmap N T * IMPL) :=
  let '(element, self') := next self in
  collect_to_memory_loop fuel elements max_count 0 element self'.

(** The [while] loop of [Stream::for_each].  The callable returns nothing
    and acts on what it captures; [W] is the state of what it captures and
    [function x] the change that a call on the element [x] makes to it. *)
Fixpoint for_each_loop {W : Type} (fuel : nat) (function : T → W → W) (world : W)
    (element : option T) (self : IMPL) : option (W * IMPL) :=
  match element with
  | None => Some (world, self)
  | Some x =>
      match fuel with
      | O => None
      | S fuel' =>
          let world' := function x world in
          let '(element', self') := next self in
          for_each_loop fuel' function world' element' self'
      end
  end.

(** [Stream::for_each]. *)
Definition for_each {W : Type} (fuel : nat) (function : T → W → W) (world : W)
    (self : IMPL) : option (W * IMPL) :=
  let '(element, self') := next self in
  for_each_loop fuel function world element self'.

(** The [while] loop of [Stream::for_each_indexed]. *)
Fixpoint for_each_indexed_loop {W : Type} (fuel : nat) (function : T → N → W → W)
    (world : W) (index : N) (element : option T) (self : IMPL) : option (W * IMPL) :=
  match element with
  | None => Some (world, self)
  | Some x =>
      match fuel with
      | O => None
      | S fuel' =>
          let world' := function x index world in
          let '(element', self') := next self in
          for_each_indexed_loop fuel' function world' (size_incr index) element' self'
      end
  end.

(** [Stream::for_each_indexed]. *)
Definition for_each_indexed {W : Type} (fuel : nat) (function : T → N → W → W)
    (world : W) (self : IMPL) : option (W * IMPL) :=
  let '(element, self') := next self in
  for_each_indexed_loop fuel function world 0 element self'.

(** The [while] loop of [Stream::all_match]. *)
Fixpoint all_match_loop (fuel : nat) (predicate : T → bool) (element : option T)
    (self : IMPL) : option (bool * IMPL) :=
  match element with
  | None => Some (true, self)
  | Some x =>
      if negb (predicate x) then Some (false, self)
      else
        match fuel with
        | O => None
        | S fuel' =>
            let '(element', self') := next self in
            all_match_loop fuel' predicate element' self'
        end
  end.

(** [Stream::all_match]. *)
Definition all_match (fuel : nat) (predicate : T → bool) (self : IMPL)
    : option (bool * IMPL) :=
  let '(element, self') := next self in
  all_match_loop fuel predicate element self'.

(** The [while] loop of [Stream::any_match]. *)
Fixpoint any_match_loop (fuel : nat) (predicate : T → bool) (element : option T)
    (self : IMPL) : option (bool * IMPL) :=
  match element with
  | None => Some (false, self)
  | Some x =>
      if predicate x then Some (true, self)
      else
        match fuel with
        | O => None
        | S fuel' =>
            let '(element', self') := next self in
            any_match_loop fuel' predicate element' self'
        end
  end.

(** [Stream::any_match]. *)
Definition any_match (fuel : nat) (predicate : T → bool) (self : IMPL)
    : option (bool * IMPL) :=
  let '(element, self') := next self in
  any_match_loop fuel predicate element self'.

(** The [while] loop of [Stream::none_match]. *)
Fixpoint none_match_loop (fuel : nat) (predicate : T → bool) (element : option T)
    (self : IMPL) : option (bool * IMPL) :=
  match element with
  | None => Some (true, self)
  | Some x =>
      if predicate x then Some (false, self)
      else
        match fuel with
        | O => None
        | S fuel' =>
            let '(element', self') := next self in
            none_match_loop fuel' predicate element' self'
        end
  end.

(** [Stream::none_match]. *)
Definition none_match (fuel : nat) (predicate : T → bool) (self : IMPL)
    : option (bool * IMPL) :=
  let '(element, self') := next self in
  none_match_loop fuel predicate element self'.

(** The [while] loop of [Stream::collect_map]: the mapping [M<K, V>] is a
    finite map and [result[k] = v] inserts or overwrites the entry of
    [k]. *)
Fixpoint collect_map_loop {K V : Type} `{Countable K} (fuel : nat)
    (key_mapper : T → K) (value_mapper : T → V) (result : gmap K V)
    (element : option T) (self : IMPL) : option (gmap K V * IMPL) :=
  match element with
  | None => Some (result, self)
  | Some value =>
      match fuel with
      | O => None
      | S fuel' =>
          let result' := <[key_mapper value := value_mapper value]> result in
          let '(element', self') := next self in
          collect_map_loop fuel' key_mapper value_mapper result' element' self'
      end
  end.

(** [Stream::collect_map]. *)
Definition collect_map {K V : Type} `{Countable K} (fuel : nat)
    (key_mapper : T → K) (value_mapper : T → V) (self : IMPL)
    : option (gmap K V * IMPL) :=
  let '(element, self') := next self in
  collect_map_loop fuel key_mapper value_mapper ∅ element self'.

End Stream.

End streams.

(** ** Integer elements *)

(** The element type of the worked examples of the specification: integers
    with their [operator+] and [operator<], taken without overflow. *)
#[global] Instance Z_Addable : streams.Addable Z := Z.add.
#[global] Instance Z_LessThanComparable : streams.LessThanComparable Z := Z.ltb.

(** The pipeline [counting(a, 1) | counting(b, 1)], which holds the two
    elements [a], [b]. *)
Definition two (a b : Z) :=
  streams.chain (streams.counting a 1) (cxxs.make b 1).

(** The pipeline [counting(a, 1) | counting(b, 1) | counting(c, 1)], which
    holds the three elements [a], [b], [c]. *)
Definition three (a b c : Z) :=
  streams.chain (two a b) (cxxs.make c 1).

(** ** Vocabulary of the properties *)

(** The state a stream is left in by a call that returned Absent. *)
Definition drained {IMPL T : Type} `{!Streamable IMPL T} (s1 : IMPL) : Prop :=
  ∃ s0 : IMPL, next s0 = (None, s1).

(** The order axioms on [operator<] under which the least and the greatest
    element of a stream are meaningful: a strict total order. *)
Record StrictTotal {T : Type} (lt : T → T → bool) : Prop := {
  lt_irrefl : ∀ x, lt x x = false;
  lt_trans : ∀ x y z, lt x y = true → lt y z = true → lt x z = true;
  lt_total : ∀ x y, lt x y = false → lt y x = false → x = y
}.

(** The lesser and the greater of two elements under [lt]; the first
    argument wins a tie. *)
Definition lesser {T : Type} (lt : T → T → bool) (a b : T) : T :=
  if lt b a then b else a.

Definition greater {T : Type} (lt : T → T → bool) (a b : T) : T :=
  if lt a b then b else a.

(** * Properties *)

(** ** The embedding on concrete pipelines *)

(** The unit test of the counting source: value 3, count 10. *)
Example counting_TestIterate :
  (pulls 11 (cxxs.make 3%Z 10)).1 = replicate 10 (Some 3%Z) ++ [None].
Proof. reflexivity. Qed.

Example supplier_run :
  streams.get_pulls [1; 2]%Z 4 (streams.make 0 2)
  = Some ([Some 1%Z; Some 2%Z; None; None], streams.make 2 2).
Proof. reflexivity. Qed.

(** A supplier whose range leaves the container dereferences outside it. *)
Example supplier_out_of_range :
  streams.get_pulls [1; 2]%Z 3 (streams.make 0 3) = None.
Proof. reflexivity. Qed.

Example three_pulls :
  (pulls 5 (three 1 2 3)).1 = [Some 1%Z; Some 2%Z; Some 3%Z; None; None].
Proof. reflexivity. Qed.

Example three_count : fst <$> streams.count 3 (three 1 2 3) = Some 3.
Proof. reflexivity. Qed.

Example three_count_out_of_fuel : streams.count 2 (three 1 2 3) = None.
Proof. reflexivity. Qed.

Example three_find_last : fst <$> streams.find_last 3 (three 1 2 3) = Some (Some 3%Z).
Proof. reflexivity. Qed.

Example three_collect : fst <$> streams.collect 3 (three 1 2 3) = Some [1; 2; 3]%Z.
Proof. reflexivity. Qed.

Example three_collect_sequence :
  fst <$> streams.collect_sequence 2 2 [0; 0]%Z (three 1 2 3) = Some [1; 2]%Z
  ∧ fst <$> streams.collect_sequence 3 5 [0; 0; 0; 0; 0]%Z (three 1 2 3)
    = Some [1; 2; 3; 0; 0]%Z.
Proof. split; reflexivity. Qed.

Example three_collect_to_memory :
  ∀ j : N,
    (default ∅ (fst <$> streams.collect_to_memory 2 (∅ : gmap N Z) 2 (three 1 2 3))) !! j
    = ({[0 := 1%Z; 1 := 2%Z]} : gmap N Z) !! j.
Proof.
  intros j. vm_compute streams.collect_to_memory.
  cbn [fmap option_fmap option_map default fst]. reflexivity.
Qed.

Example three_skip_then_first :
  (streams.find_first (streams.skip 2 (three 1 2 3))).1 = Some 3%Z
  ∧ (streams.find_first (streams.skip 7 (three 1 2 3))).1 = None.
Proof. split; reflexivity. Qed.

(** ** Call sequences *)

Section Pulls.
Context {IMPL T : Type} `{!Streamable IMPL T}.

Lemma pulls_S (n : nat) (s : IMPL) :
  pulls (S n) s = ((next s).1 :: (pulls n (next s).2).1, (pulls n (next s).2).2).
Proof.
  simpl. destruct (next s) as [e s1]. simpl.
  destruct (pulls n s1) as [rest s2]. reflexivity.
Qed.

Lemma pulls_length (n : nat) (s : IMPL) : length (pulls n s).1 = n.
Proof.
  revert s. induction n as [|n IH]; intros s; [reflexivity|].
  rewrite pulls_S. simpl. by rewrite IH.
Qed.

Lemma pulls_add (n m : nat) (s : IMPL) :
  pulls (n + m) s
  = ((pulls n s).1 ++ (pulls m (pulls n s).2).1, (pulls m (pulls n s).2).2).
Proof.
  revert s. induction n as [|n IH]; intros s.
  - simpl. by destruct (pulls m s).
  - replace (S n + m)%nat with (S (n + m)) by lia.
    rewrite !pulls_S, IH. reflexivity.
Qed.

Lemma yields_nil (s s' : IMPL) : yields s [] s' ↔ next s = (None, s').
Proof.
  unfold yields. rewrite pulls_S. simpl.
  destruct (next s) as [e s1]. simpl. split.
  - intros [= -> ->]. reflexivity.
  - intros [= -> ->]. reflexivity.
Qed.

Lemma yields_cons (s s' : IMPL) (x : T) (l : list T) :
  yields s (x :: l) s' ↔ ∃ s1, next s = (Some x, s1) ∧ yields s1 l s'.
Proof.
  unfold yields. cbn [length]. rewrite (pulls_S (S (length l)) s).
  destruct (next s) as [e s1]. cbn [fst snd].
  destruct (pulls (S (length l)) s1) as [rest s2] eqn:E. cbn [fst snd]. split.
  - rewrite fmap_cons. intros [= -> -> ->]. by exists s1.
  - intros (s1' & [= -> <-] & Hl). rewrite E in Hl. by injection Hl as -> ->.
Qed.

(** Absent answers only: the state the stream is in once it has returned
    Absent, under the exhaustion contract. *)
Lemma stays_exhausted_pulls (n : nat) (s : IMPL) :
  stays_exhausted IMPL → (next s).1 = None → Forall (λ e, e = None) (pulls n s).1.
Proof.
  intros Hc. revert s. induction n as [|n IH]; intros s Hs.
  - constructor.
  - rewrite pulls_S. simpl. constructor; [done|]. apply IH. by apply Hc.
Qed.

End Pulls.

(** ** The counting source *)

Section Counting.
Import cxxs.
Context {T : Type}.

Lemma size_incr_below (c m : N) : c < m → m < SIZE_MODULUS → size_incr c = c + 1.
Proof. intros Hc Hm. unfold size_incr. apply N.mod_small. lia. Qed.

Lemma counting_next_absent (s : CountingStreamable T) :
  _count s = _max_count s → next s = (None, s).
Proof.
  intros Heq. unfold next, CountingStreamable_streamable, CountingStreamable_next.
  by rewrite Heq, N.eqb_refl.
Qed.

Lemma counting_next_present (s : CountingStreamable T) :
  _count s ≠ _max_count s →
  next s = (Some (_value s),
            mkCountingStreamable (_value s) (_max_count s) (size_incr (_count s))).
Proof.
  intros Hne. unfold next, CountingStreamable_streamable, CountingStreamable_next.
  apply N.eqb_neq in Hne. by rewrite Hne.
Qed.

Lemma counting_pulls_from (n : nat) (v : T) (m c : N) :
  c + N.of_nat n = m → m < SIZE_MODULUS →
  pulls (S n) (mkCountingStreamable v m c)
  = (replicate n (Some v) ++ [None], mkCountingStreamable v m m).
Proof.
  revert c. induction n as [|n IH]; intros c Hc Hm.
  - rewrite pulls_S, counting_next_absent by (simpl; lia).
    simpl. f_equal. f_equal. lia.
  - rewrite pulls_S, counting_next_present by (simpl; lia).
    cbn [fst snd _value _max_count _count].
    rewrite size_incr_below with (m := m) by lia.
    rewrite IH by lia. reflexivity.
Qed.

Lemma counting_yields (v : T) (k : N) :
  k < SIZE_MODULUS →
  yields (make v k) (replicate (N.to_nat k) v) (mkCountingStreamable v k k).
Proof.
  intros Hk. unfold yields, make.
  rewrite length_replicate, fmap_replicate.
  apply counting_pulls_from; lia.
Qed.

Lemma counting_frame (s : CountingStreamable T) :
  _value (next s).2 = _value s ∧ _max_count (next s).2 = _max_count s
  ∧ ((next s).1 = None ∨ (next s).1 = Some (_value s)).
Proof.
  unfold next, CountingStreamable_streamable, CountingStreamable_next.
  destruct (_count s =? _max_count s); simpl; auto.
Qed.

Lemma counting_frame_pulls (n : nat) (s : CountingStreamable T) :
  _value (pulls n s).2 = _value s ∧ _max_count (pulls n s).2 = _max_count s
  ∧ Forall (λ e, e = None ∨ e = Some (_value s)) (pulls n s).1.
Proof.
  revert s. induction n as [|n IH]; intros s.
  - simpl. auto.
  - rewrite pulls_S. cbn [fst snd].
    destruct (counting_frame s) as (Hv & Hm & He).
    destruct (IH (next s).2) as (Hv' & Hm' & Hall).
    rewrite Hv in Hv', Hall. rewrite Hm in Hm'. auto.
Qed.

Lemma counting_stays_exhausted : stays_exhausted (CountingStreamable T).
Proof.
  intros s. unfold next, CountingStreamable_streamable, CountingStreamable_next.
  destruct (_count s =? _max_count s) eqn:E; simpl; [|done].
  by rewrite E.
Qed.

End Counting.

Section CountingClaims.
Import cxxs.
Context {T : Type}.

Lemma counting_pulls_prefix (i : nat) (v : T) (k : N) :
  N.of_nat i ≤ k → k < SIZE_MODULUS →
  pulls i (make v k) = (replicate i (Some v), mkCountingStreamable v k (N.of_nat i)).
Proof.
  intros Hi Hk. induction i as [|i IH].
  - reflexivity.
  - replace (S i) with (i + 1)%nat by lia.
    rewrite pulls_add, IH by lia. cbn [fst snd].
    rewrite pulls_S, counting_next_present by (simpl; lia).
    cbn [fst snd pulls _value _max_count _count].
    rewrite size_incr_below with (m := k) by lia.
    replace (i + 1)%nat with (S i) by lia.
    rewrite replicate_S_end. do 2 f_equal. lia.
Qed.

(** C1: for the counting source constructed with value [v] and count [k],
    each of the first [k] calls of [next] returns Present [v], and call
    number [k + 1] returns Absent. *)
Theorem counting_first_k_then_absent (v : T) (k : N) :
  k < SIZE_MODULUS →
  (∀ i : nat, (i < N.to_nat k)%nat → (next (pulls i (make v k)).2).1 = Some v)
  ∧ (next (pulls (N.to_nat k) (make v k)).2).1 = None.
Proof.
  intros Hk. split.
  - intros i Hi. rewrite counting_pulls_prefix by lia. cbn [snd].
    by rewrite counting_next_present by (simpl; lia).
  - rewrite counting_pulls_prefix by lia. cbn [snd].
    by rewrite counting_next_absent by (simpl; lia).
Qed.

(** C9: a call of the counting source's [next] leaves the stored value
    and the maximum count as they were, so that after any number of calls
    on a freshly constructed source both are still the constructor's
    arguments and every Present answer carried the constructor's value. *)
Theorem counting_next_keeps_value_and_max (s : CountingStreamable T) :
  (_value (next s).2 = _value s ∧ _max_count (next s).2 = _max_count s)
  ∧ ∀ (v : T) (k : N) (n : nat),
      _value (pulls n (make v k)).2 = v
      ∧ _max_count (pulls n (make v k)).2 = k
      ∧ Forall (λ e, e = None ∨ e = Some v) (pulls n (make v k)).1.
Proof.
  split.
  - destruct (counting_frame s) as (Hv & Hm & _). auto.
  - intros v k n. apply (counting_frame_pulls n (make v k)).
Qed.

End CountingClaims.

Lemma counting_first_k_then_absent_witness :
  10 < SIZE_MODULUS
  ∧ ((∀ i : nat, (i < N.to_nat 10)%nat →
        (next (pulls i (cxxs.make 3%Z 10)).2).1 = Some 3%Z)
     ∧ (next (pulls (N.to_nat 10) (cxxs.make 3%Z 10)).2).1 = None).
Proof.
  split; [reflexivity | apply (counting_first_k_then_absent 3%Z 10); reflexivity].
Defined.

(** ** Exhaustion is permanent *)

Section Exhaustion.
Import cxxs streams.
Context {T : Type}.

Lemma get_next_absent (c : list T) (s s' : RefSupplier) :
  get_next c s = Some (None, s') → s' = s ∧ _current s = _end s.
Proof.
  unfold get_next. destruct (Nat.eqb (_current s) (_end s)) eqn:E.
  - intros [= <-]. split; [done|]. by apply Nat.eqb_eq.
  - destruct (c !! _current s); discriminate.
Qed.

Lemma get_pulls_exhausted (c : list T) (n : nat) (s : RefSupplier) :
  _current s = _end s → get_pulls c n s = Some (replicate n None, s).
Proof.
  intros Heq. induction n as [|n IH]; [reflexivity|].
  cbn [get_pulls]. unfold get_next at 1.
  rewrite Heq, Nat.eqb_refl. cbn. rewrite IH. reflexivity.
Qed.

Lemma counting_pulls_exhausted (n : nat) (s : CountingStreamable T) :
  _count s = _max_count s → pulls n s = (replicate n None, s).
Proof.
  intros Heq. induction n as [|n IH]; [reflexivity|].
  rewrite pulls_S, counting_next_absent by done. cbn [fst snd].
  rewrite IH. reflexivity.
Qed.

(** C2: for the counting source and for the iterator-bound supplier, in
    any state: once a call has returned Absent, every later call returns
    Absent as well, without error, and the source stays in the state it
    was in before the first of these calls. *)
Theorem absent_is_permanent :
  (∀ (s : CountingStreamable T) (n : nat),
      (next s).1 = None → pulls n (next s).2 = (replicate n None, s))
  ∧ (∀ (c : list T) (s s' : RefSupplier) (n : nat),
      get_next c s = Some (None, s') →
      get_pulls c n s' = Some (replicate n None, s)).
Proof.
  split.
  - intros s n Hs.
    assert (_count s = _max_count s) as Heq.
    { destruct (N.eq_dec (_count s) (_max_count s)) as [|Hne]; [done|].
      rewrite counting_next_present in Hs by done. discriminate. }
    rewrite counting_next_absent by done. cbn [snd].
    by apply counting_pulls_exhausted.
  - intros c s s' n Hs. apply get_next_absent in Hs as [-> Heq].
    by apply get_pulls_exhausted.
Qed.

End Exhaustion.

Lemma absent_is_permanent_witness :
  pulls 3 (next (cxxs.mkCountingStreamable 7%Z 2 2)).2
  = (replicate 3 None, cxxs.mkCountingStreamable 7%Z 2 2)
  ∧ streams.get_pulls [1%Z; 2%Z] 3 (streams.make 2 2)
    = Some (replicate 3 None, streams.make 2 2).
Proof.
  split.
  - apply (proj1 absent_is_permanent (cxxs.mkCountingStreamable 7%Z 2 2) 3%nat).
    reflexivity.
  - apply (proj2 absent_is_permanent [1%Z; 2%Z] (streams.make 2 2) (streams.make 2 2) 3%nat).
    reflexivity.
Defined.

(** ** Streams with finitely many elements *)

Section Finite.
Context {IMPL T : Type} `{!Streamable IMPL T}.

Lemma yields_pulls_prefix (n : nat) (s s' : IMPL) (l : list T) :
  yields s l s' → (n ≤ length l)%nat →
  (pulls n s).1 = Some <$> take n l ∧ yields (pulls n s).2 (drop n l) s'.
Proof.
  revert s l. induction n as [|n IH]; intros s l Hy Hn.
  - simpl. by rewrite drop_0.
  - destruct l as [|x l]; [simpl in Hn; lia|].
    apply yields_cons in Hy as (s1 & Hs & Hy).
    rewrite pulls_S, Hs. cbn [fst snd take drop].
    simpl in Hn. destruct (IH s1 l Hy) as [-> Hd]; [lia|].
    by rewrite fmap_cons.
Qed.

Lemma yields_pulls_all (s s' : IMPL) (l : list T) :
  yields s l s' →
  (next (pulls (length l) s).2) = (None, s').
Proof.
  intros Hy. destruct (yields_pulls_prefix (length l) s s' l Hy) as [_ Hd]; [lia|].
  rewrite drop_all in Hd. by apply yields_nil.
Qed.

Lemma yields_inj (s s1 s2 : IMPL) (l1 l2 : list T) :
  yields s l1 s1 → yields s l2 s2 → l1 = l2 ∧ s1 = s2.
Proof.
  revert s l2. induction l1 as [|x l1 IH]; intros s l2 H1 H2.
  - apply yields_nil in H1. destruct l2 as [|y l2].
    + apply yields_nil in H2. split; congruence.
    + apply yields_cons in H2 as (s3 & H2 & _). congruence.
  - apply yields_cons in H1 as (s3 & H1 & H1').
    destruct l2 as [|y l2].
    + apply yields_nil in H2. congruence.
    + apply yields_cons in H2 as (s4 & H2 & H2').
      rewrite H1 in H2. injection H2 as <- <-.
      destruct (IH s3 l2 H1' H2') as [-> ->]. done.
Qed.

End Finite.

(** ** Reduction *)

Section Reduce.
Import streams.
Context {IMPL T : Type} `{!Streamable IMPL T}.

Lemma reduce_loop_yields (function : T → T → T) (l : list T) (s' : IMPL) :
  ∀ (fuel : nat) (acc x : T) (s : IMPL),
    yields s l s' → (length l < fuel)%nat →
    reduce_loop fuel function acc (Some x) s
    = Some (fold_left function (x :: l) acc, s').
Proof.
  induction l as [|y l IH]; intros fuel acc x s Hy Hf;
    (destruct fuel as [|fuel]; [simpl in Hf; lia|]).
  - apply yields_nil in Hy. cbn [reduce_loop]. rewrite Hy. by destruct fuel.
  - apply yields_cons in Hy as (s1 & Hs & Hy). cbn [reduce_loop]. rewrite Hs.
    rewrite (IH fuel) by (done || simpl in Hf; lia). reflexivity.
Qed.

Lemma reduce_yields (function : T → T → T) (fuel : nat) (s s' : IMPL) (l : list T) :
  yields s l s' → (length l ≤ fuel)%nat →
  reduce fuel function s
  = Some (match l with [] => None | x :: r => Some (fold_left function r x) end, s').
Proof.
  intros Hy Hf. unfold reduce. destruct l as [|x r].
  - apply yields_nil in Hy. by rewrite Hy.
  - apply yields_cons in Hy as (s1 & Hs & Hy). rewrite Hs.
    destruct r as [|y r].
    + apply yields_nil in Hy. rewrite Hy. by destruct fuel.
    + apply yields_cons in Hy as (s2 & Hs2 & Hy). rewrite Hs2.
      rewrite (reduce_loop_yields function r s') by (done || simpl in Hf; lia).
      reflexivity.
Qed.

Lemma min_loop_reduce_loop `{!LessThanComparable T} (fuel : nat) :
  ∀ (result : T) (element : option T) (s : IMPL),
    min_loop fuel result element s
    = reduce_loop fuel (λ a b, if less b a then b else a) result element s.
Proof.
  induction fuel as [|fuel IH]; intros result [value|] s; try reflexivity.
  cbn [min_loop reduce_loop]. destruct (next s) as [e s1]. apply IH.
Qed.

Lemma max_loop_reduce_loop `{!LessThanComparable T} (fuel : nat) :
  ∀ (result : T) (element : option T) (s : IMPL),
    max_loop fuel result element s
    = reduce_loop fuel (λ a b, if less a b then b else a) result element s.
Proof.
  induction fuel as [|fuel IH]; intros result [value|] s; try reflexivity.
  cbn [max_loop reduce_loop]. destruct (next s) as [e s1]. apply IH.
Qed.

Lemma min_is_reduce `{!LessThanComparable T} (fuel : nat) (s : IMPL) :
  min fuel s = reduce fuel (λ a b, if less b a then b else a) s.
Proof.
  unfold min, reduce. destruct (next s) as [[first|] s1]; [|reflexivity].
  destruct (next s1) as [e s2]. by rewrite min_loop_reduce_loop.
Qed.

Lemma max_is_reduce `{!LessThanComparable T} (fuel : nat) (s : IMPL) :
  max fuel s = reduce fuel (λ a b, if less a b then b else a) s.
Proof.
  unfold max, reduce. destruct (next s) as [[first|] s1]; [|reflexivity].
  destruct (next s1) as [e s2]. by rewrite max_loop_reduce_loop.
Qed.

End Reduce.

Section Extrema.
Context {T : Type} (lt : T → T → bool) (Hlt : StrictTotal lt).

Lemma lt_false_le (x y : T) : lt y x = false → x = y ∨ lt x y = true.
Proof.
  intros H. destruct (lt x y) eqn:E; [by right|left].
  by apply (lt_total lt Hlt).
Qed.

Lemma below_chain (m z y : T) :
  m = z ∨ lt m z = true → z = y ∨ lt z y = true → m = y ∨ lt m y = true.
Proof.
  intros [->|Hm] [->|Hz]; auto. right. by apply (lt_trans lt Hlt _ z).
Qed.

Lemma above_chain (m z y : T) :
  m = z ∨ lt z m = true → z = y ∨ lt y z = true → m = y ∨ lt y m = true.
Proof.
  intros [->|Hm] [->|Hz]; auto. right. by apply (lt_trans lt Hlt _ z).
Qed.

Lemma lesser_cases (x v : T) :
  (lesser lt x v = x ∨ lesser lt x v = v)
  ∧ (lesser lt x v = x ∨ lt (lesser lt x v) x = true)
  ∧ (lesser lt x v = v ∨ lt (lesser lt x v) v = true).
Proof.
  unfold lesser. destruct (lt v x) eqn:E; auto.
  destruct (lt_false_le x v E); auto.
Qed.

Lemma greater_cases (x v : T) :
  (greater lt x v = x ∨ greater lt x v = v)
  ∧ (greater lt x v = x ∨ lt x (greater lt x v) = true)
  ∧ (greater lt x v = v ∨ lt v (greater lt x v) = true).
Proof.
  unfold greater. destruct (lt x v) eqn:E; auto.
  destruct (lt_false_le v x E); auto.
Qed.

Lemma fold_lesser_least (r : list T) (x : T) :
  let m := fold_left (lesser lt) r x in
  m ∈ x :: r ∧ ∀ y, y ∈ x :: r → m = y ∨ lt m y = true.
Proof.
  revert x. induction r as [|v r IH]; intros x; cbn [fold_left].
  - split; [by left|]. intros y Hy. apply list_elem_of_singleton in Hy. by left.
  - destruct (IH (lesser lt x v)) as [Hin Hle].
    destruct (lesser_cases x v) as (Hc & Hx & Hv).
    assert (fold_left (lesser lt) r (lesser lt x v) = lesser lt x v
            ∨ lt (fold_left (lesser lt) r (lesser lt x v)) (lesser lt x v) = true) as Hm.
    { apply Hle. by left. }
    split.
    + apply elem_of_cons in Hin as [Hin|Hin].
      * rewrite Hin, !elem_of_cons. destruct Hc as [->| ->]; auto.
      * rewrite !elem_of_cons. auto.
    + intros y Hy. rewrite !elem_of_cons in Hy. destruct Hy as [->|[->|Hy]].
      * by apply (below_chain _ (lesser lt x v)).
      * by apply (below_chain _ (lesser lt x v)).
      * apply Hle. by right.
Qed.

Lemma fold_greater_greatest (r : list T) (x : T) :
  let m := fold_left (greater lt) r x in
  m ∈ x :: r ∧ ∀ y, y ∈ x :: r → m = y ∨ lt y m = true.
Proof.
  revert x. induction r as [|v r IH]; intros x; cbn [fold_left].
  - split; [by left|]. intros y Hy. apply list_elem_of_singleton in Hy. by left.
  - destruct (IH (greater lt x v)) as [Hin Hle].
    destruct (greater_cases x v) as (Hc & Hx & Hv).
    assert (fold_left (greater lt) r (greater lt x v) = greater lt x v
            ∨ lt (greater lt x v) (fold_left (greater lt) r (greater lt x v)) = true) as Hm.
    { apply Hle. by left. }
    split.
    + apply elem_of_cons in Hin as [Hin|Hin].
      * rewrite Hin, !elem_of_cons. destruct Hc as [->| ->]; auto.
      * rewrite !elem_of_cons. auto.
    + intros y Hy. rewrite !elem_of_cons in Hy. destruct Hy as [->|[->|Hy]].
      * by apply (above_chain _ (greater lt x v)).
      * by apply (above_chain _ (greater lt x v)).
      * apply Hle. by right.
Qed.

End Extrema.

(** ** Reduction: the claims *)

Lemma Z_ltb_strict_total : StrictTotal Z.ltb.
Proof.
  split.
  - intros x. apply Z.ltb_irrefl.
  - intros x y z Hxy Hyz. apply Z.ltb_lt in Hxy, Hyz. apply Z.ltb_lt. lia.
  - intros x y Hxy Hyx. apply Z.ltb_ge in Hxy, Hyx. lia.
Qed.

(** C3: [reduce] returns Absent on an empty stream; on a non-empty stream
    it returns the left fold of the function over the elements after the
    first, in pull order, seeded with the first element; so on the stream
    1, 2, 3 with addition it returns Present 6. *)
Theorem reduce_left_fold_seeded_by_first :
  (∀ (IMPL T : Type) (H : Streamable IMPL T) (function : T → T → T)
     (fuel : nat) (s s' : IMPL) (l : list T),
      yields s l s' → (length l ≤ fuel)%nat →
      streams.reduce fuel function s
      = Some (match l with
              | [] => None
              | first :: rest => Some (fold_left function rest first)
              end, s'))
  ∧ (∀ (IMPL : Type) (H : Streamable IMPL Z) (fuel : nat) (s s' : IMPL),
      yields s [1; 2; 3]%Z s' → (3 ≤ fuel)%nat →
      streams.reduce fuel Z.add s = Some (Some 6%Z, s')).
Proof.
  split.
  - intros IMPL T H function fuel s s' l Hy Hf. by apply reduce_yields.
  - intros IMPL H fuel s s' Hy Hf.
    by rewrite (reduce_yields Z.add fuel s s' [1; 2; 3]%Z Hy Hf).
Qed.

Lemma reduce_left_fold_seeded_by_first_witness :
  streams.reduce 3 Z.add (three 1 2 3) = Some (Some 6%Z, (pulls 4 (three 1 2 3)).2)
  ∧ streams.reduce 0 Z.add (streams.counting 5%Z 0)
    = Some (None, (pulls 1 (streams.counting 5%Z 0)).2).
Proof.
  split.
  - apply (proj2 reduce_left_fold_seeded_by_first _ _ 3%nat (three 1 2 3));
      [reflexivity | apply le_n].
  - apply (proj1 reduce_left_fold_seeded_by_first _ _ _ Z.add 0%nat
             (streams.counting 5%Z 0) _ []); [reflexivity | apply le_n].
Defined.

(** C6: [sum], [min] and [max] return what [reduce] returns for addition,
    for the lesser and for the greater of two elements under [operator<];
    so each is Absent on an empty stream, and on a non-empty one [sum] is
    Present of the sum of the elements and, when [operator<] is a strict
    total order, [min] and [max] are Present of the least and of the
    greatest element. *)
Theorem sum_min_max_are_reductions
    (IMPL T : Type) (H : Streamable IMPL T)
    (HA : streams.Addable T) (HL : streams.LessThanComparable T) :
  (∀ (fuel : nat) (s : IMPL),
      streams.sum fuel s = streams.reduce fuel streams.add s
      ∧ streams.min fuel s = streams.reduce fuel (lesser streams.less) s
      ∧ streams.max fuel s = streams.reduce fuel (greater streams.less) s)
  ∧ (∀ (fuel : nat) (s s' : IMPL) (l : list T),
      yields s l s' → (length l ≤ fuel)%nat →
      match l with
      | [] =>
          streams.sum fuel s = Some (None, s')
          ∧ streams.min fuel s = Some (None, s')
          ∧ streams.max fuel s = Some (None, s')
      | first :: rest =>
          streams.sum fuel s = Some (Some (fold_left streams.add rest first), s')
          ∧ (StrictTotal streams.less →
             ∃ lo hi : T,
               streams.min fuel s = Some (Some lo, s')
               ∧ streams.max fuel s = Some (Some hi, s')
               ∧ lo ∈ l ∧ hi ∈ l
               ∧ ∀ y, y ∈ l →
                   (lo = y ∨ streams.less lo y = true)
                   ∧ (hi = y ∨ streams.less y hi = true))
      end).
Proof.
  split.
  - intros fuel s. split; [reflexivity|]. split.
    + apply min_is_reduce.
    + apply max_is_reduce.
  - intros fuel s s' l Hy Hf. destruct l as [|first rest].
    + unfold streams.sum. rewrite min_is_reduce, max_is_reduce.
      by rewrite !(reduce_yields _ fuel s s' [] Hy Hf).
    + split.
      * unfold streams.sum. by rewrite (reduce_yields _ fuel s s' _ Hy Hf).
      * intros Hlt.
        exists (fold_left (lesser streams.less) rest first),
               (fold_left (greater streams.less) rest first).
        rewrite min_is_reduce, max_is_reduce.
        rewrite !(reduce_yields _ fuel s s' _ Hy Hf).
        destruct (fold_lesser_least streams.less Hlt rest first) as [Hlo Hleast].
        destruct (fold_greater_greatest streams.less Hlt rest first) as [Hhi Hgreatest].
        repeat split; auto.
Qed.

Lemma sum_min_max_are_reductions_witness :
  streams.sum 3 (three 3 1 2) = Some (Some 6%Z, (pulls 4 (three 3 1 2)).2)
  ∧ ∃ lo hi : Z,
      streams.min 3 (three 3 1 2) = Some (Some lo, (pulls 4 (three 3 1 2)).2)
      ∧ streams.max 3 (three 3 1 2) = Some (Some hi, (pulls 4 (three 3 1 2)).2)
      ∧ lo ∈ [3; 1; 2]%Z ∧ hi ∈ [3; 1; 2]%Z
      ∧ ∀ y, y ∈ [3; 1; 2]%Z →
          (lo = y ∨ streams.less lo y = true) ∧ (hi = y ∨ streams.less y hi = true).
Proof.
  destruct (proj2 (sum_min_max_are_reductions _ Z _ _ _) 3%nat (three 3 1 2)
              (pulls 4 (three 3 1 2)).2 [3; 1; 2]%Z)
    as [Hsum Hextrema]; [reflexivity | apply le_n |].
  split; [exact Hsum | exact (Hextrema Z_ltb_strict_total)].
Defined.

(** ** Chaining *)

Section Chaining.
Import streams.
Context {S1 S2 T : Type} `{!Streamable S1 T} `{!Streamable S2 T}.

Lemma chain_next_first (a a1 : S1) (b : S2) (x : T) :
  next a = (Some x, a1) →
  next (mkChainingStream a b) = (Some x, mkChainingStream a1 b).
Proof.
  intros Ha. unfold next at 1, ChainingStream_streamable, ChainingStream_next.
  cbn [chain_first chain_second]. by rewrite Ha.
Qed.

Lemma chain_next_second (a : S1) (b : S2) :
  (next a).1 = None →
  next (mkChainingStream a b)
  = ((next b).1, mkChainingStream (next a).2 (next b).2).
Proof.
  intros Ha. unfold next at 1, ChainingStream_streamable, ChainingStream_next.
  cbn [chain_first chain_second].
  destruct (next a) as [e a1]. simpl in Ha. subst e.
  by destruct (next b).
Qed.

Lemma chain_pulls_first (n : nat) (a a' : S1) (b : S2) (la : list T) :
  yields a la a' → (n ≤ length la)%nat →
  pulls n (mkChainingStream a b)
  = (Some <$> take n la, mkChainingStream (pulls n a).2 b).
Proof.
  revert a la. induction n as [|n IH]; intros a la Hy Hn; [reflexivity|].
  destruct la as [|x la]; [simpl in Hn; lia|].
  apply yields_cons in Hy as (a1 & Ha & Hy). simpl in Hn.
  rewrite !pulls_S, (chain_next_first a a1 b x Ha), Ha. cbn [fst snd].
  rewrite (IH a1 la Hy) by lia. reflexivity.
Qed.

Lemma chain_pulls_second (n : nat) (a : S1) (b : S2) :
  stays_exhausted S1 → (next a).1 = None →
  pulls n (mkChainingStream a b)
  = ((pulls n b).1, mkChainingStream (pulls n a).2 (pulls n b).2).
Proof.
  intros Hc. revert a b. induction n as [|n IH]; intros a b Ha; [reflexivity|].
  rewrite !pulls_S, chain_next_second by done. cbn [fst snd].
  rewrite IH by (by apply Hc). reflexivity.
Qed.

Lemma chain_yields (a a' : S1) (b b' : S2) (la lb : list T) :
  stays_exhausted S1 → yields a la a' → yields b lb b' →
  yields (mkChainingStream a b) (la ++ lb)
    (mkChainingStream (pulls (S (length la + length lb)) a).2 b').
Proof.
  intros Hc Ha Hb. unfold yields. rewrite length_app.
  replace (S (length la + length lb)) with (length la + S (length lb))%nat by lia.
  rewrite !pulls_add.
  rewrite (chain_pulls_first (length la) a a' b la Ha) by lia. cbn [fst snd].
  rewrite chain_pulls_second; [|done|by rewrite (yields_pulls_all a a' la Ha)].
  cbn [fst snd]. unfold yields in Hb. rewrite Hb. cbn [fst snd].
  by rewrite firstn_all, fmap_app, app_assoc.
Qed.

Lemma chain_stays_exhausted :
  stays_exhausted S1 → stays_exhausted S2 → stays_exhausted (ChainingStream S1 S2).
Proof.
  intros H1 H2 [a b] Hab.
  assert ((next a).1 = None) as Ha.
  { destruct (next a) as [[x|] a1] eqn:Ea; [|done].
    by rewrite (chain_next_first a a1 b x Ea) in Hab. }
  rewrite chain_next_second in Hab |- * by done. cbn [fst snd] in Hab |- *.
  rewrite chain_next_second by (by apply H1). cbn [fst]. by apply H2.
Qed.

End Chaining.

Lemma basic_next {S0 T : Type} `{!Streamable S0 T} (s : S0) :
  next (streams.mkBasicStream s) = ((next s).1, streams.mkBasicStream (next s).2).
Proof.
  unfold next at 1, streams.BasicStream_streamable, streams.BasicStream_next.
  cbn [streams._streamable]. by destruct (next s).
Qed.

Lemma basic_stays_exhausted {S0 T : Type} `{!Streamable S0 T} :
  stays_exhausted S0 → stays_exhausted (streams.BasicStream S0).
Proof.
  intros Hc [s]. rewrite !basic_next. cbn [fst snd]. rewrite basic_next. apply Hc.
Qed.

Lemma two_stays_exhausted :
  stays_exhausted
    (streams.ChainingStream (streams.BasicStream (cxxs.CountingStreamable Z))
       (cxxs.CountingStreamable Z)).
Proof.
  apply chain_stays_exhausted.
  - apply basic_stays_exhausted, counting_stays_exhausted.
  - apply counting_stays_exhausted.
Qed.

(** C5: [A.chain(B)] yields the elements of [A] in order and then those of
    [B] in order; [A.pre_chain(B)] yields the elements of [B] in order and
    then those of [A]; in both, the second component is not pulled while
    the elements of the first are delivered.  The component that comes
    first honours the exhaustion contract of streamables. *)
Theorem chain_appends_pre_chain_prepends
    (IMPL S2 T : Type) (HA : Streamable IMPL T) (HB : Streamable S2 T)
    (a a' : IMPL) (b b' : S2) (la lb : list T) :
  yields a la a' → yields b lb b' →
  (stays_exhausted IMPL →
     yields (streams.chain a b) (la ++ lb)
       (streams.mkChainingStream (pulls (S (length la + length lb)) a).2 b')
     ∧ ∀ n : nat, (n ≤ length la)%nat →
         pulls n (streams.chain a b)
         = (Some <$> take n la, streams.mkChainingStream (pulls n a).2 b))
  ∧ (stays_exhausted S2 →
     yields (streams.pre_chain a b) (lb ++ la)
       (streams.mkChainingStream (pulls (S (length lb + length la)) b).2 a')
     ∧ ∀ n : nat, (n ≤ length lb)%nat →
         pulls n (streams.pre_chain a b)
         = (Some <$> take n lb, streams.mkChainingStream (pulls n b).2 a)).
Proof.
  intros Ha Hb. split; intros Hc; split.
  - by apply (chain_yields a a' b b').
  - intros n Hn. by apply (chain_pulls_first n a a').
  - by apply (chain_yields b b' a a').
  - intros n Hn. by apply (chain_pulls_first n b b').
Qed.

Lemma chain_appends_pre_chain_prepends_witness :
  yields (streams.chain (two 1 2) (two 3 4)) [1; 2; 3; 4]%Z
    (streams.mkChainingStream (pulls 5 (two 1 2)).2 (pulls 3 (two 3 4)).2)
  ∧ yields (streams.pre_chain (two 1 2) (two 3 4)) [3; 4; 1; 2]%Z
      (streams.mkChainingStream (pulls 5 (two 3 4)).2 (pulls 3 (two 1 2)).2).
Proof.
  destruct (chain_appends_pre_chain_prepends _ _ Z _ _
              (two 1 2) (pulls 3 (two 1 2)).2 (two 3 4) (pulls 3 (two 3 4)).2
              [1; 2]%Z [3; 4]%Z) as [Hchain Hpre]; [reflexivity | reflexivity |].
  split.
  - exact (proj1 (Hchain two_stays_exhausted)).
  - exact (proj1 (Hpre two_stays_exhausted)).
Defined.

(** ** Skipping *)

Section Skip.
Import streams.
Context {IMPL T : Type} `{!Streamable IMPL T}.

Lemma skip_loop_yields (n : nat) (s' : IMPL) :
  ∀ (s : IMPL) (l : list T),
    yields s l s' →
    skip_loop n s = (pulls (Nat.min n (S (length l))) s).2.
Proof.
  induction n as [|n IH]; intros s l Hy; [reflexivity|].
  cbn [skip_loop]. destruct l as [|x l].
  - apply yields_nil in Hy. rewrite Hy.
    replace (Nat.min (S n) (S (length (@nil T)))) with 1%nat by (simpl; lia).
    by rewrite pulls_S, Hy.
  - apply yields_cons in Hy as (s1 & Hs & Hy). rewrite Hs.
    replace (Nat.min (S n) (S (length (x :: l))))
      with (S (Nat.min n (S (length l)))) by (simpl; lia).
    rewrite pulls_S, Hs. cbn [fst snd]. by apply IH.
Qed.

(** C8: on a stream of [L] elements, [skip(count)] makes [min count (L+1)]
    calls of [next], the first [min count L] of which deliver the first
    elements of the stream, which are discarded; it stops at the first
    Absent answer, and the pipeline it returns still holds the elements
    after the skipped ones. *)
Theorem skip_discards_prefix (count : N) (s s' : IMPL) (l : list T) :
  yields s l s' →
  skip count s = (pulls (Nat.min (N.to_nat count) (S (length l))) s).2
  ∧ (pulls (Nat.min (N.to_nat count) (length l)) s).1 = Some <$> take (N.to_nat count) l
  ∧ ((N.to_nat count ≤ length l)%nat → yields (skip count s) (drop (N.to_nat count) l) s')
  ∧ ((length l < N.to_nat count)%nat → skip count s = s').
Proof.
  intros Hy. unfold skip. rewrite (skip_loop_yields _ s' s l Hy).
  split; [reflexivity|]. split; [|split].
  - destruct (yields_pulls_prefix (Nat.min (N.to_nat count) (length l)) s s' l Hy)
      as [-> _]; [lia|].
    f_equal. destruct (Nat.le_ge_cases (N.to_nat count) (length l)).
    + by rewrite Nat.min_l.
    + rewrite Nat.min_r by done. by rewrite !take_ge by lia.
  - intros Hn. rewrite Nat.min_l by lia.
    by destruct (yields_pulls_prefix (N.to_nat count) s s' l Hy Hn).
  - intros Hn. rewrite Nat.min_r by lia.
    unfold yields in Hy. by rewrite Hy.
Qed.

End Skip.

Lemma skip_discards_prefix_witness :
  streams.skip 2 (three 1 2 3) = (pulls (Nat.min (N.to_nat 2) 4) (three 1 2 3)).2
  ∧ (pulls (Nat.min (N.to_nat 2) 3) (three 1 2 3)).1 = Some <$> take (N.to_nat 2) [1; 2; 3]%Z
  ∧ ((N.to_nat 2 ≤ 3)%nat →
     yields (streams.skip 2 (three 1 2 3)) (drop (N.to_nat 2) [1; 2; 3]%Z)
       (pulls 4 (three 1 2 3)).2)
  ∧ ((3 < N.to_nat 2)%nat → streams.skip 2 (three 1 2 3) = (pulls 4 (three 1 2 3)).2).
Proof.
  apply (skip_discards_prefix 2 (three 1 2 3) (pulls 4 (three 1 2 3)).2 [1; 2; 3]%Z).
  reflexivity.
Defined.

(** ** A second terminal operation *)

Section Drained.
Import streams.
Context {IMPL T : Type} `{!Streamable IMPL T}.

Lemma drained_next (s1 : IMPL) :
  stays_exhausted IMPL → drained s1 → (next s1).1 = None.
Proof.
  intros Hc [s0 Hs0]. pose proof (Hc s0) as Hs. rewrite Hs0 in Hs. by apply Hs.
Qed.

Lemma drained_first_pull (s : IMPL) : (next s).1 = None → drained (next s).2.
Proof. intros Hs. exists s. destruct (next s) as [e s1]. simpl in *. by subst. Qed.

Ltac loop_step IH :=
  match goal with
  | |- context [next ?s] =>
      let e := fresh "e" in let s1 := fresh "s1" in let E := fresh "E" in
      destruct (next s) as [e s1] eqn:E; intros Hr;
      try (apply IH in Hr; [exact Hr | intros ->; by exists s])
  end.

Lemma count_loop_drained (fuel : nat) :
  ∀ (result : N) (element : option T) (s s1 : IMPL) (n : N),
    (element = None → drained s) →
    count_loop fuel result element s = Some (n, s1) → drained s1.
Proof.
  induction fuel as [|fuel IH]; intros result [x|] s s1 n Hd; cbn [count_loop];
    try discriminate; try (intros [= _ <-]; by apply Hd).
  loop_step IH.
Qed.

Lemma reduce_loop_drained (function : T → T → T) (fuel : nat) :
  ∀ (acc : T) (element : option T) (s s1 : IMPL) (r : T),
    (element = None → drained s) →
    reduce_loop fuel function acc element s = Some (r, s1) → drained s1.
Proof.
  induction fuel as [|fuel IH]; intros acc [x|] s s1 r Hd; cbn [reduce_loop];
    try discriminate; try (intros [= _ <-]; by apply Hd).
  loop_step IH.
Qed.

Lemma collect_loop_drained (fuel : nat) :
  ∀ (result : list T) (element : option T) (s s1 : IMPL) (r : list T),
    (element = None → drained s) →
    collect_loop fuel result element s = Some (r, s1) → drained s1.
Proof.
  induction fuel as [|fuel IH]; intros result [x|] s s1 r Hd; cbn [collect_loop];
    try discriminate; try (intros [= _ <-]; by apply Hd).
  loop_step IH.
Qed.

Lemma find_last_loop_drained (fuel : nat) :
  ∀ (element : option T) (s s1 : IMPL) (r : option T),
    (element = None → drained s) →
    find_last_loop fuel element s = Some (r, s1) → drained s1.
Proof.
  induction fuel as [|fuel IH]; intros [x|] s s1 r Hd; cbn [find_last_loop];
    try discriminate; try (intros [= _ <-]; by apply Hd).
  destruct (next s) as [[y|] s2] eqn:E.
  - intros Hr. apply IH in Hr; [done|discriminate].
  - intros [= _ <-]. by exists s.
Qed.

Lemma count_drained (fuel : nat) (s s1 : IMPL) (n : N) :
  count fuel s = Some (n, s1) → drained s1.
Proof.
  unfold count. destruct (next s) as [e s0] eqn:E.
  apply count_loop_drained. intros ->. by exists s.
Qed.

Lemma collect_drained (fuel : nat) (s s1 : IMPL) (r : list T) :
  collect fuel s = Some (r, s1) → drained s1.
Proof.
  unfold collect. destruct (next s) as [e s0] eqn:E.
  apply collect_loop_drained. intros ->. by exists s.
Qed.

Lemma find_last_drained (fuel : nat) (s s1 : IMPL) (r : option T) :
  find_last fuel s = Some (r, s1) → drained s1.
Proof.
  unfold find_last. destruct (next s) as [e s0] eqn:E.
  apply find_last_loop_drained. intros ->. by exists s.
Qed.

Lemma reduce_drained (function : T → T → T) (fuel : nat) (s s1 : IMPL) (r : option T) :
  reduce fuel function s = Some (r, s1) → drained s1.
Proof.
  unfold reduce. destruct (next s) as [[first|] s0] eqn:E.
  - destruct (next s0) as [e s2] eqn:E2.
    destruct (reduce_loop fuel function first e s2) as [[acc s3]|] eqn:El;
      [|discriminate].
    intros [= _ <-]. apply reduce_loop_drained in El; [done|].
    intros ->. by exists s0.
  - intros [= _ <-]. by exists s.
Qed.

(** The terminal operations on an exhausted stream. *)
Lemma count_exhausted (fuel : nat) (s : IMPL) :
  (next s).1 = None → count fuel s = Some (0, (next s).2).
Proof.
  intros Hs. unfold count. destruct (next s) as [e s1]. simpl in Hs. subst e.
  by destruct fuel.
Qed.

Lemma collect_exhausted (fuel : nat) (s : IMPL) :
  (next s).1 = None → collect fuel s = Some ([], (next s).2).
Proof.
  intros Hs. unfold collect. destruct (next s) as [e s1]. simpl in Hs. subst e.
  by destruct fuel.
Qed.

Lemma find_last_exhausted (fuel : nat) (s : IMPL) :
  (next s).1 = None → find_last fuel s = Some (None, (next s).2).
Proof.
  intros Hs. unfold find_last. destruct (next s) as [e s1]. simpl in Hs. subst e.
  by destruct fuel.
Qed.

Lemma reduce_exhausted (function : T → T → T) (fuel : nat) (s : IMPL) :
  (next s).1 = None → reduce fuel function s = Some (None, (next s).2).
Proof.
  intros Hs. unfold reduce. destruct (next s) as [e s1]. simpl in Hs. by subst e.
Qed.

End Drained.

(** C4: on a pipeline that honours the exhaustion contract and that a first
    terminal operation ([count], [reduce], [find_last], [sum], [min], [max]
    or [collect]) has drained, a second terminal operation returns the
    empty result, whatever fuel it is given: [count] returns 0, [collect]
    the empty container, and [reduce], [find_last], [sum], [min] and [max]
    return Absent; the pipeline is then still exhausted. *)
Theorem second_terminal_operation_is_empty
    (IMPL T : Type) (H : Streamable IMPL T)
    (HA : streams.Addable T) (HL : streams.LessThanComparable T)
    (fuel : nat) (s s1 : IMPL) :
  stays_exhausted IMPL →
  ((∃ n, streams.count fuel s = Some (n, s1))
   ∨ (∃ function r, streams.reduce fuel function s = Some (r, s1))
   ∨ (∃ r, streams.find_last fuel s = Some (r, s1))
   ∨ (∃ r, streams.sum fuel s = Some (r, s1))
   ∨ (∃ r, streams.min fuel s = Some (r, s1))
   ∨ (∃ r, streams.max fuel s = Some (r, s1))
   ∨ (∃ r, streams.collect fuel s = Some (r, s1))) →
  ∀ fuel' : nat,
    streams.count fuel' s1 = Some (0, (next s1).2)
    ∧ (∀ function, streams.reduce fuel' function s1 = Some (None, (next s1).2))
    ∧ streams.find_last fuel' s1 = Some (None, (next s1).2)
    ∧ streams.sum fuel' s1 = Some (None, (next s1).2)
    ∧ streams.min fuel' s1 = Some (None, (next s1).2)
    ∧ streams.max fuel' s1 = Some (None, (next s1).2)
    ∧ streams.collect fuel' s1 = Some ([], (next s1).2)
    ∧ (next (next s1).2).1 = None.
Proof.
  intros Hc Hfirst fuel'.
  assert (drained s1) as Hd.
  { destruct Hfirst as [[n Hr]|[(f & r & Hr)|[[r Hr]|[[r Hr]|[[r Hr]|[[r Hr]|[r Hr]]]]]]].
    - by apply count_drained in Hr.
    - by apply reduce_drained in Hr.
    - by apply find_last_drained in Hr.
    - unfold streams.sum in Hr. by apply reduce_drained in Hr.
    - rewrite min_is_reduce in Hr. by apply reduce_drained in Hr.
    - rewrite max_is_reduce in Hr. by apply reduce_drained in Hr.
    - by apply collect_drained in Hr. }
  pose proof (drained_next s1 Hc Hd) as Hs1.
  rewrite min_is_reduce, max_is_reduce. unfold streams.sum.
  rewrite count_exhausted, find_last_exhausted, collect_exhausted by done.
  rewrite !reduce_exhausted by done.
  repeat split; try done.
  - intros function. by apply reduce_exhausted.
  - by apply Hc.
Qed.

Lemma counting_basic_stays_exhausted :
  stays_exhausted (streams.BasicStream (cxxs.CountingStreamable Z)).
Proof. apply basic_stays_exhausted, counting_stays_exhausted. Qed.

Lemma second_terminal_operation_is_empty_witness :
  let s1 := (pulls 11 (streams.counting 3%Z 10)).2 in
  let fuel' := 0%nat in
    streams.count fuel' s1 = Some (0, (next s1).2)
    ∧ (∀ function, streams.reduce fuel' function s1 = Some (None, (next s1).2))
    ∧ streams.find_last fuel' s1 = Some (None, (next s1).2)
    ∧ streams.sum fuel' s1 = Some (None, (next s1).2)
    ∧ streams.min fuel' s1 = Some (None, (next s1).2)
    ∧ streams.max fuel' s1 = Some (None, (next s1).2)
    ∧ streams.collect fuel' s1 = Some ([], (next s1).2)
    ∧ (next (next s1).2).1 = None.
Proof.
  apply (second_terminal_operation_is_empty _ Z _ _ _ 10 (streams.counting 3%Z 10)).
  - exact counting_basic_stays_exhausted.
  - left. exists 10. reflexivity.
Defined.

(** ** Collecting up to a capacity bound *)

Section Bounded.
Import streams.
Context {IMPL T : Type} `{!Streamable IMPL T}.

Lemma collect_to_memory_loop_stop (fuel : nat) (mem : gmap N T) (cap index : N)
    (x : T) (s : IMPL) :
  cap ≤ index →
  collect_to_memory_loop fuel mem cap index (Some x) s = Some (mem, s).
Proof.
  intros Hi. apply N.ltb_ge in Hi.
  destruct fuel; cbn [collect_to_memory_loop]; by rewrite Hi.
Qed.

Lemma collect_to_memory_loop_yields (cap : N) (s' : IMPL) :
  cap < SIZE_MODULUS →
  ∀ (l : list T) (fuel : nat) (mem : gmap N T) (index : N) (x : T) (s : IMPL),
    yields s l s' → index ≤ cap →
    (Nat.min (S (length l)) (N.to_nat (cap - index)) ≤ fuel)%nat →
    ∃ mem' : gmap N T,
      collect_to_memory_loop fuel mem cap index (Some x) s
      = Some (mem', (pulls (Nat.min (S (length l)) (N.to_nat (cap - index))) s).2)
      ∧ ∀ j : N,
          mem' !! j
          = if decide (index ≤ j
                       < index + N.of_nat (Nat.min (S (length l)) (N.to_nat (cap - index))))
            then (x :: l) !! N.to_nat (j - index)
            else mem !! j.
Proof.
  intros Hcap. induction l as [|y l IH]; intros fuel mem index x s Hy Hi Hf.
  - destruct (N.eq_dec index cap) as [->|Hne].
    + rewrite collect_to_memory_loop_stop by lia.
      replace (N.to_nat (cap - cap)) with 0%nat by lia.
      exists mem. split; [reflexivity|]. intros j. case_decide; [lia|done].
    + apply yields_nil in Hy.
      replace (Nat.min (S (length (@nil T))) (N.to_nat (cap - index)))
        with 1%nat in * by (cbn [length]; lia).
      destruct fuel as [|fuel]; [lia|].
      cbn [collect_to_memory_loop].
      replace (index <? cap) with true by (symmetry; apply N.ltb_lt; lia).
      rewrite Hy, pulls_S, Hy. cbn [fst snd pulls].
      exists (<[index := x]> mem). split; [by destruct fuel|].
      intros j. case_decide as Hj.
      * replace j with index by lia. rewrite lookup_insert_eq.
        by replace (index - index) with 0 by lia.
      * rewrite lookup_insert_ne by lia. done.
  - destruct (N.eq_dec index cap) as [->|Hne].
    + rewrite collect_to_memory_loop_stop by lia.
      replace (N.to_nat (cap - cap)) with 0%nat by lia.
      exists mem. split; [reflexivity|]. intros j. case_decide; [lia|done].
    + apply yields_cons in Hy as (s1 & Hs & Hy).
      replace (Nat.min (S (length (y :: l))) (N.to_nat (cap - index)))
        with (S (Nat.min (S (length l)) (N.to_nat (cap - (index + 1))))) in *
        by (cbn [length]; lia).
      destruct fuel as [|fuel]; [lia|].
      cbn [collect_to_memory_loop].
      replace (index <? cap) with true by (symmetry; apply N.ltb_lt; lia).
      rewrite Hs, pulls_S, Hs. cbn [fst snd].
      rewrite size_incr_below with (m := cap) by lia.
      destruct (IH fuel (<[index := x]> mem) (index + 1) y s1 Hy) as (mem' & -> & Hmem');
        [lia | lia |].
      exists mem'. split; [reflexivity|].
      intros j. rewrite Hmem'. repeat case_decide; try lia.
      * replace (N.to_nat (j - index)) with (S (N.to_nat (j - (index + 1)))) by lia.
        reflexivity.
      * replace j with index by lia. rewrite lookup_insert_eq.
        by replace (index - index) with 0 by lia.
      * rewrite lookup_insert_ne by lia. done.
Qed.

Lemma collect_sequence_loop_stop (fuel : nat) (result : list T) (cap index : N)
    (x : T) (s : IMPL) :
  cap ≤ index →
  collect_sequence_loop fuel cap result index (Some x) s = Some (result, s).
Proof.
  intros Hi. apply N.ltb_ge in Hi.
  destruct fuel; cbn [collect_sequence_loop]; by rewrite Hi.
Qed.

Lemma collect_sequence_loop_yields (cap : N) (s' : IMPL) :
  cap < SIZE_MODULUS →
  ∀ (l : list T) (fuel : nat) (result : list T) (index : N) (x : T) (s : IMPL),
    yields s l s' → index ≤ cap →
    (Nat.min (S (length l)) (N.to_nat (cap - index)) ≤ fuel)%nat →
    ∃ result' : list T,
      collect_sequence_loop fuel cap result index (Some x) s
      = Some (result', (pulls (Nat.min (S (length l)) (N.to_nat (cap - index))) s).2)
      ∧ (length result = N.to_nat cap →
         length result' = N.to_nat cap
         ∧ ∀ j : nat,
             result' !! j
             = if decide (N.to_nat index ≤ j
                          < N.to_nat index
                            + Nat.min (S (length l)) (N.to_nat (cap - index)))%nat
               then (x :: l) !! (j - N.to_nat index)%nat
               else result !! j).
Proof.
  intros Hcap. induction l as [|y l IH]; intros fuel result index x s Hy Hi Hf.
  - destruct (N.eq_dec index cap) as [->|Hne].
    + rewrite collect_sequence_loop_stop by lia.
      replace (N.to_nat (cap - cap)) with 0%nat by lia.
      exists result. split; [reflexivity|]. intros Hlen. split; [done|].
      intros j. case_decide; [lia|done].
    + apply yields_nil in Hy.
      replace (Nat.min (S (length (@nil T))) (N.to_nat (cap - index)))
        with 1%nat in * by (cbn [length]; lia).
      destruct fuel as [|fuel]; [lia|].
      cbn [collect_sequence_loop].
      replace (index <? cap) with true by (symmetry; apply N.ltb_lt; lia).
      rewrite Hy, pulls_S, Hy. cbn [fst snd pulls].
      exists (<[N.to_nat index := x]> result). split; [by destruct fuel|].
      intros Hlen. split; [by rewrite length_insert|].
      intros j. case_decide as Hj.
      * replace j with (N.to_nat index) by lia.
        rewrite list_lookup_insert_eq by lia.
        by replace (N.to_nat index - N.to_nat index)%nat with 0%nat by lia.
      * rewrite list_lookup_insert_ne by lia. done.
  - destruct (N.eq_dec index cap) as [->|Hne].
    + rewrite collect_sequence_loop_stop by lia.
      replace (N.to_nat (cap - cap)) with 0%nat by lia.
      exists result. split; [reflexivity|]. intros Hlen. split; [done|].
      intros j. case_decide; [lia|done].
    + apply yields_cons in Hy as (s1 & Hs & Hy).
      replace (Nat.min (S (length (y :: l))) (N.to_nat (cap - index)))
        with (S (Nat.min (S (length l)) (N.to_nat (cap - (index + 1))))) in *
        by (cbn [length]; lia).
      destruct fuel as [|fuel]; [lia|].
      cbn [collect_sequence_loop].
      replace (index <? cap) with true by (symmetry; apply N.ltb_lt; lia).
      rewrite Hs, pulls_S, Hs. cbn [fst snd].
      rewrite size_incr_below with (m := cap) by lia.
      destruct (IH fuel (<[N.to_nat index := x]> result) (index + 1) y s1 Hy)
        as (result' & -> & Hres'); [lia | lia |].
      exists result'. split; [reflexivity|].
      intros Hlen. destruct Hres' as [Hlen' Hres']; [by rewrite length_insert|].
      split; [done|].
      intros j. rewrite Hres'. repeat case_decide; try lia.
      * replace (j - N.to_nat index)%nat with (S (j - N.to_nat (index + 1))) by lia.
        reflexivity.
      * replace j with (N.to_nat index) by lia.
        rewrite list_lookup_insert_eq by lia.
        by replace (N.to_nat index - N.to_nat index)%nat with 0%nat by lia.
      * rewrite list_lookup_insert_ne by lia. done.
Qed.

End Bounded.

Section BoundedCollect.
Import streams.
Context {IMPL T : Type} `{!Streamable IMPL T}.
Context (cap : N) (fuel : nat) (s s' : IMPL) (l : list T).
Context (Hy : yields s l s') (Hcap : cap < SIZE_MODULUS).
Context (Hfuel : (Nat.min (length l) (N.to_nat cap) ≤ fuel)%nat).

Lemma collect_sequence_yields (fresh : list T) :
  ∃ result : list T,
    collect_sequence fuel cap fresh s
    = Some (result, (pulls (S (Nat.min (length l) (N.to_nat cap))) s).2)
    ∧ (length fresh = N.to_nat cap →
       result = take (Nat.min (length l) (N.to_nat cap)) l
                ++ drop (Nat.min (length l) (N.to_nat cap)) fresh).
Proof.
  unfold collect_sequence. rewrite pulls_S. destruct l as [|x r].
  - apply yields_nil in Hy. rewrite Hy. cbn [fst snd length Nat.min pulls].
    exists fresh. split; [by destruct fuel|]. intros _. by rewrite drop_0.
  - apply yields_cons in Hy as (s1 & Hs & Hr). rewrite Hs. cbn [fst snd].
    destruct (collect_sequence_loop_yields cap s' Hcap r fuel fresh 0 x s1 Hr)
      as (result & Hres & Hcontent); [lia | rewrite N.sub_0_r; exact Hfuel |].
    rewrite N.sub_0_r in Hres, Hcontent. exists result. split; [exact Hres|].
    intros Hlen. destruct (Hcontent Hlen) as [Hlen' Hlookup].
    apply list_eq. intros j. rewrite Hlookup.
    cbn [length]. change (N.to_nat 0) with 0%nat.
    set (m := Nat.min (S (length r)) (N.to_nat cap)).
    assert (length (take m (x :: r)) = m) as Htake.
    { rewrite length_take. cbn [length]. lia. }
    case_decide as Hj.
    + rewrite lookup_app_l by lia. rewrite lookup_take_lt by lia.
      f_equal. lia.
    + rewrite lookup_app_r by lia. rewrite lookup_drop, Htake.
      f_equal. lia.
Qed.

Lemma collect_to_memory_yields (mem : gmap N T) :
  ∃ mem' : gmap N T,
    collect_to_memory fuel mem cap s
    = Some (mem', (pulls (S (Nat.min (length l) (N.to_nat cap))) s).2)
    ∧ ∀ j : N,
        mem' !! j
        = if decide (j < N.of_nat (Nat.min (length l) (N.to_nat cap)))
          then l !! N.to_nat j
          else mem !! j.
Proof.
  unfold collect_to_memory. rewrite pulls_S. destruct l as [|x r].
  - apply yields_nil in Hy. rewrite Hy. cbn [fst snd length Nat.min pulls].
    exists mem. split; [by destruct fuel|]. intros j. case_decide; [lia|done].
  - apply yields_cons in Hy as (s1 & Hs & Hr). rewrite Hs. cbn [fst snd].
    destruct (collect_to_memory_loop_yields cap s' Hcap r fuel mem 0 x s1 Hr)
      as (mem' & Hres & Hcontent); [lia | rewrite N.sub_0_r; exact Hfuel |].
    rewrite N.sub_0_r in Hres, Hcontent. exists mem'. split; [exact Hres|].
    intros j. rewrite Hcontent. rewrite N.sub_0_r.
    repeat case_decide; try done; cbn [length] in *; lia.
Qed.

End BoundedCollect.

(** C7: on a stream of [L] elements, [collect_sequence] with bound [EXTENT]
    and [collect_to_memory] with bound [max_count] return normally and
    store exactly the first [min L capacity] elements of the stream, in
    order, at the positions 0 to [min L capacity - 1]; every other position,
    in particular every position at or beyond the capacity, keeps what it
    held, and the elements past the capacity are dropped without error. *)
Theorem bounded_collect_writes_prefix
    (IMPL T : Type) (H : Streamable IMPL T)
    (cap : N) (fuel : nat) (s s' : IMPL) (l : list T) :
  yields s l s' → cap < SIZE_MODULUS →
  (Nat.min (length l) (N.to_nat cap) ≤ fuel)%nat →
  (∀ fresh : list T, length fresh = N.to_nat cap →
     ∃ after : IMPL,
       streams.collect_sequence fuel cap fresh s
       = Some (take (Nat.min (length l) (N.to_nat cap)) l
               ++ drop (Nat.min (length l) (N.to_nat cap)) fresh, after))
  ∧ (∀ elements : gmap N T,
       ∃ (elements' : gmap N T) (after : IMPL),
         streams.collect_to_memory fuel elements cap s = Some (elements', after)
         ∧ ∀ j : N,
             elements' !! j
             = if decide (j < N.of_nat (Nat.min (length l) (N.to_nat cap)))
               then l !! N.to_nat j
               else elements !! j).
Proof.
  intros Hy Hcap Hfuel. split.
  - intros fresh Hlen.
    destruct (collect_sequence_yields cap fuel s s' l Hy Hcap Hfuel fresh)
      as (result & Hres & Hcontent).
    rewrite (Hcontent Hlen) in Hres. eauto.
  - intros elements.
    destruct (collect_to_memory_yields cap fuel s s' l Hy Hcap Hfuel elements)
      as (elements' & Hres & Hcontent).
    eauto.
Qed.

Lemma bounded_collect_writes_prefix_witness :
  (∀ fresh : list Z, length fresh = N.to_nat 3 →
     ∃ after,
       streams.collect_sequence 3 3 fresh (streams.counting 7%Z 5)
       = Some (take (Nat.min (length (replicate 5 7%Z)) (N.to_nat 3)) (replicate 5 7%Z)
               ++ drop (Nat.min (length (replicate 5 7%Z)) (N.to_nat 3)) fresh, after))
  ∧ (∀ elements : gmap N Z,
       ∃ (elements' : gmap N Z) after,
         streams.collect_to_memory 3 elements 3 (streams.counting 7%Z 5)
         = Some (elements', after)
         ∧ ∀ j : N,
             elements' !! j
             = if decide (j < N.of_nat (Nat.min (length (replicate 5 7%Z)) (N.to_nat 3)))
               then replicate 5 7%Z !! N.to_nat j
               else elements !! j).
Proof.
  apply (bounded_collect_writes_prefix _ Z _ 3 3%nat (streams.counting 7%Z 5)
           (pulls 6 (streams.counting 7%Z 5)).2 (replicate 5 7%Z)).
  - reflexivity.
  - reflexivity.
  - vm_compute. lia.
Defined.

(** C10: when the stream holds more elements than the capacity bound,
    [collect_sequence] and [collect_to_memory] leave the stream in the state
    that follows [capacity + 1] calls of [next], all of which delivered an
    element; the element pulled once the buffer is full is therefore gone,
    and the stream continues with the element after it. *)
Theorem bounded_collect_consumes_one_more
    (IMPL T : Type) (H : Streamable IMPL T)
    (cap : N) (fuel : nat) (s s' : IMPL) (l : list T) :
  yields s l s' → cap < SIZE_MODULUS →
  (N.to_nat cap < length l)%nat → (N.to_nat cap ≤ fuel)%nat →
  (∀ fresh : list T,
     ∃ result : list T,
       streams.collect_sequence fuel cap fresh s
       = Some (result, (pulls (S (N.to_nat cap)) s).2))
  ∧ (∀ elements : gmap N T,
       ∃ elements' : gmap N T,
         streams.collect_to_memory fuel elements cap s
         = Some (elements', (pulls (S (N.to_nat cap)) s).2))
  ∧ (pulls (S (N.to_nat cap)) s).1 = Some <$> take (S (N.to_nat cap)) l
  ∧ yields (pulls (S (N.to_nat cap)) s).2 (drop (S (N.to_nat cap)) l) s'.
Proof.
  intros Hy Hcap Hlen Hfuel.
  assert (Nat.min (length l) (N.to_nat cap) = N.to_nat cap) as Hmin by lia.
  split; [|split].
  - intros fresh.
    destruct (collect_sequence_yields cap fuel s s' l Hy Hcap) with (fresh := fresh)
      as (result & Hres & _); [lia|].
    rewrite Hmin in Hres. eauto.
  - intros elements.
    destruct (collect_to_memory_yields cap fuel s s' l Hy Hcap) with (mem := elements)
      as (elements' & Hres & _); [lia|].
    rewrite Hmin in Hres. eauto.
  - apply yields_pulls_prefix; [done | lia].
Qed.

Lemma bounded_collect_consumes_one_more_witness :
  (∀ fresh : list Z,
     ∃ result : list Z,
       streams.collect_sequence 2 2 fresh (three 1 2 3)
       = Some (result, (pulls (S (N.to_nat 2)) (three 1 2 3)).2))
  ∧ (∀ elements : gmap N Z,
       ∃ elements' : gmap N Z,
         streams.collect_to_memory 2 elements 2 (three 1 2 3)
         = Some (elements', (pulls (S (N.to_nat 2)) (three 1 2 3)).2))
  ∧ (pulls (S (N.to_nat 2)) (three 1 2 3)).1 = Some <$> take (S (N.to_nat 2)) [1; 2; 3]%Z
  ∧ yields (pulls (S (N.to_nat 2)) (three 1 2 3)).2 (drop (S (N.to_nat 2)) [1; 2; 3]%Z)
      (pulls 4 (three 1 2 3)).2.
Proof.
  apply (bounded_collect_consumes_one_more _ Z _ 2 2%nat (three 1 2 3)
           (pulls 4 (three 1 2 3)).2 [1; 2; 3]%Z).
  - reflexivity.
  - reflexivity.
  - vm_compute. lia.
  - vm_compute. lia.
Defined.

(** * Further properties of the sources *)

Section Supplier.
Import streams.
Context {T : Type}.

Lemma get_pulls_S (c : list T) (n : nat) (s s1 : RefSupplier) (e : option T) :
  get_next c s = Some (e, s1) →
  get_pulls c (S n) s
  = '(rest, s2) ← get_pulls c n s1; Some (e :: rest, s2).
Proof. intros Hs. cbn [get_pulls]. by rewrite Hs. Qed.

Lemma get_next_present (c : list T) (current end_ : nat) (x : T) :
  current ≠ end_ → c !! current = Some x →
  get_next c (mkRefSupplier current end_)
  = Some (Some x, mkRefSupplier (S current) end_).
Proof.
  intros Hne Hx. unfold get_next. cbn [_current _end].
  apply Nat.eqb_neq in Hne. by rewrite Hne, Hx.
Qed.


Lemma supplier_range_from (c : list T) (end_ : nat) :
  (end_ ≤ length c)%nat →
  ∀ (d begin : nat), (begin + d)%nat = end_ →
    get_pulls c (S d) (mkRefSupplier begin end_)
    = Some ((Some <$> take d (drop begin c)) ++ [None], mkRefSupplier end_ end_).
Proof.
  intros Hend. induction d as [|d IH]; intros begin Hd.
  - replace begin with end_ by lia. by rewrite get_pulls_exhausted.
  - destruct (lookup_lt_is_Some_2 c begin) as [x Hx]; [lia|].
    rewrite (get_pulls_S c _ _ _ _ (get_next_present c begin end_ x ltac:(lia) Hx)).
    rewrite IH by lia. cbn. by rewrite (drop_S c x begin Hx).
Qed.

(** X1: a supplier over a range that lies inside the container delivers the
    elements of the range, in order, then Absent, never leaves the
    container, and ends with its cursor on the end of the range. *)
Theorem supplier_delivers_range (c : list T) (begin end_ : nat) :
  (begin ≤ end_)%nat → (end_ ≤ length c)%nat →
  get_pulls c (S (end_ - begin)) (make begin end_)
  = Some ((Some <$> take (end_ - begin) (drop begin c)) ++ [None], make end_ end_).
Proof. intros Hb He. apply supplier_range_from; [done | lia]. Qed.



End Supplier.

Lemma supplier_delivers_range_witness :
  streams.get_pulls [10; 20; 30; 40]%Z (S (3 - 1)) (streams.make 1 3)
  = Some ((Some <$> take (3 - 1) (drop 1 [10; 20; 30; 40]%Z)) ++ [None],
          streams.make 3 3).
Proof.
  apply (supplier_delivers_range [10; 20; 30; 40]%Z 1 3); simpl; lia.
Defined.


Section CountingRun.
Import cxxs.
Context {T : Type}.

(** X3: the whole run of a counting source.  After [n] calls on a source
    constructed with count [k], the counter is [min n k]: it never passes
    the maximum and never goes back; the first [min n k] answers were
    Present of the value and all later ones Absent. *)
Theorem counting_run (v : T) (k : N) (n : nat) :
  k < SIZE_MODULUS →
  pulls n (make v k)
  = (replicate (Nat.min n (N.to_nat k)) (Some v)
     ++ replicate (n - N.to_nat k) None,
     mkCountingStreamable v k (N.min (N.of_nat n) k)).
Proof.
  intros Hk. destruct (Nat.le_gt_cases n (N.to_nat k)) as [Hn|Hn].
  - rewrite counting_pulls_prefix by lia.
    replace (n - N.to_nat k)%nat with 0%nat by lia.
    rewrite Nat.min_l, N.min_l by lia. by rewrite app_nil_r.
  - replace n with (N.to_nat k + (n - N.to_nat k))%nat at 1 by lia.
    rewrite pulls_add, counting_pulls_prefix by lia. cbn [fst snd].
    rewrite counting_pulls_exhausted by (simpl; lia). cbn [fst snd].
    rewrite Nat.min_r, N.min_r by lia. do 2 f_equal. lia.
Qed.

End CountingRun.

Lemma counting_run_witness :
  pulls 5 (cxxs.make 3%Z 2)
  = (replicate (Nat.min 5 (N.to_nat 2)) (Some 3%Z) ++ replicate (5 - N.to_nat 2) None,
     cxxs.mkCountingStreamable 3%Z 2 (N.min (N.of_nat 5) 2)).
Proof. apply (counting_run 3%Z 2 5). reflexivity. Defined.

(** * Further properties of the terminal operations *)

Section Draining.
Import streams.
Context {IMPL T : Type} `{!Streamable IMPL T}.

Lemma count_loop_yields (l : list T) (s' : IMPL) :
  ∀ (fuel : nat) (result : N) (x : T) (s : IMPL),
    yields s l s' → (length l < fuel)%nat →
    count_loop fuel result (Some x) s
    = Some ((result + N.of_nat (S (length l))) mod SIZE_MODULUS, s').
Proof.
  assert (SIZE_MODULUS ≠ 0) as HM by done.
  induction l as [|y l IH]; intros fuel result x s Hy Hf;
    (destruct fuel as [|fuel]; [cbn [length] in Hf; lia|]); cbn [count_loop].
  - apply yields_nil in Hy. rewrite Hy. by destruct fuel.
  - apply yields_cons in Hy as (s1 & Hs & Hy). rewrite Hs.
    rewrite (IH fuel) by (done || cbn [length] in Hf; lia).
    unfold size_incr. rewrite N.Div0.add_mod_idemp_l.
    replace (result + 1 + N.of_nat (S (length l)))
      with (result + N.of_nat (S (length (y :: l)))) by (cbn [length]; lia).
    reflexivity.
Qed.

(** X4: on a stream of [L] elements [count] drains the stream and returns
    [L] reduced modulo the range of [size_t], hence [L] itself whenever [L]
    fits in a [size_t]. *)
Theorem count_is_length (fuel : nat) (s s' : IMPL) (l : list T) :
  yields s l s' → (length l ≤ fuel)%nat →
  count fuel s = Some (N.of_nat (length l) mod SIZE_MODULUS, s')
  ∧ (N.of_nat (length l) < SIZE_MODULUS → count fuel s = Some (N.of_nat (length l), s')).
Proof.
  intros Hy Hf.
  assert (count fuel s = Some (N.of_nat (length l) mod SIZE_MODULUS, s')) as Hc.
  { unfold count. destruct l as [|x l].
    - apply yields_nil in Hy. rewrite Hy. by destruct fuel.
    - apply yields_cons in Hy as (s1 & Hs & Hy). rewrite Hs.
      rewrite (count_loop_yields l s') by (done || cbn [length] in Hf; lia).
      reflexivity. }
  split; [exact Hc|]. intros Hsmall. by rewrite Hc, N.mod_small.
Qed.

Lemma find_last_loop_yields (l : list T) (s' : IMPL) :
  ∀ (fuel : nat) (x : T) (s : IMPL),
    yields s l s' → (length l < fuel)%nat →
    find_last_loop fuel (Some x) s = Some (last (x :: l), s').
Proof.
  induction l as [|y l IH]; intros fuel x s Hy Hf;
    (destruct fuel as [|fuel]; [cbn [length] in Hf; lia|]); cbn [find_last_loop].
  - apply yields_nil in Hy. by rewrite Hy.
  - apply yields_cons in Hy as (s1 & Hs & Hy). rewrite Hs.
    rewrite (IH fuel) by (done || cbn [length] in Hf; lia).
    by rewrite last_cons_cons.
Qed.

(** X5: [find_last] drains the stream and returns its last element, Absent
    when the stream is empty. *)
Theorem find_last_is_last (fuel : nat) (s s' : IMPL) (l : list T) :
  yields s l s' → (length l ≤ fuel)%nat →
  find_last fuel s = Some (last l, s').
Proof.
  intros Hy Hf. unfold find_last. destruct l as [|x l].
  - apply yields_nil in Hy. rewrite Hy. by destruct fuel.
  - apply yields_cons in Hy as (s1 & Hs & Hy). rewrite Hs.
    by apply find_last_loop_yields.
Qed.

Lemma collect_loop_yields (l : list T) (s' : IMPL) :
  ∀ (fuel : nat) (result : list T) (x : T) (s : IMPL),
    yields s l s' → (length l < fuel)%nat →
    collect_loop fuel result (Some x) s = Some (result ++ x :: l, s').
Proof.
  induction l as [|y l IH]; intros fuel result x s Hy Hf;
    (destruct fuel as [|fuel]; [cbn [length] in Hf; lia|]); cbn [collect_loop].
  - apply yields_nil in Hy. rewrite Hy. by destruct fuel.
  - apply yields_cons in Hy as (s1 & Hs & Hy). rewrite Hs.
    rewrite (IH fuel) by (done || cbn [length] in Hf; lia).
    by rewrite <- app_assoc.
Qed.

(** X6: [collect] drains the stream and returns a container that holds
    exactly the elements of the stream, in pull order. *)
Theorem collect_is_elements (fuel : nat) (s s' : IMPL) (l : list T) :
  yields s l s' → (length l ≤ fuel)%nat →
  collect fuel s = Some (l, s').
Proof.
  intros Hy Hf. unfold collect. destruct l as [|x l].
  - apply yields_nil in Hy. rewrite Hy. by destruct fuel.
  - apply yields_cons in Hy as (s1 & Hs & Hy). rewrite Hs.
    by rewrite (collect_loop_yields l s').
Qed.

Lemma for_each_loop_yields {W : Type} (function : T → W → W) (l : list T) (s' : IMPL) :
  ∀ (fuel : nat) (world : W) (x : T) (s : IMPL),
    yields s l s' → (length l < fuel)%nat →
    for_each_loop fuel function world (Some x) s
    = Some (fold_left (λ w y, function y w) (x :: l) world, s').
Proof.
  induction l as [|y l IH]; intros fuel world x s Hy Hf;
    (destruct fuel as [|fuel]; [cbn [length] in Hf; lia|]); cbn [for_each_loop].
  - apply yields_nil in Hy. rewrite Hy. by destruct fuel.
  - apply yields_cons in Hy as (s1 & Hs & Hy). rewrite Hs.
    by rewrite (IH fuel) by (done || cbn [length] in Hf; lia).
Qed.

(** X7: [for_each] drains the stream and calls the function once on every
    element, in pull order; it makes no call on an empty stream. *)
Theorem for_each_in_order {W : Type} (function : T → W → W) (world : W)
    (fuel : nat) (s s' : IMPL) (l : list T) :
  yields s l s' → (length l ≤ fuel)%nat →
  for_each fuel function world s
  = Some (fold_left (λ w y, function y w) l world, s').
Proof.
  intros Hy Hf. unfold for_each. destruct l as [|x l].
  - apply yields_nil in Hy. rewrite Hy. by destruct fuel.
  - apply yields_cons in Hy as (s1 & Hs & Hy). rewrite Hs.
    by rewrite (for_each_loop_yields function l s').
Qed.

Lemma for_each_indexed_loop_yields {W : Type} (function : T → N → W → W)
    (l : list T) (s' : IMPL) :
  ∀ (fuel : nat) (world : W) (i : nat) (x : T) (s : IMPL),
    yields s l s' → (length l < fuel)%nat →
    N.of_nat (i + S (length l)) ≤ SIZE_MODULUS →
    for_each_indexed_loop fuel function world (N.of_nat i) (Some x) s
    = Some (fold_left (λ w iy, function iy.2 (N.of_nat iy.1) w)
              (zip (seq i (S (length l))) (x :: l)) world, s').
Proof.
  induction l as [|y l IH]; intros fuel world i x s Hy Hf Hi;
    (destruct fuel as [|fuel]; [cbn [length] in Hf; lia|]);
    cbn [for_each_indexed_loop].
  - apply yields_nil in Hy. rewrite Hy. by destruct fuel.
  - apply yields_cons in Hy as (s1 & Hs & Hy). rewrite Hs.
    cbn [length] in Hi.
    rewrite size_incr_below with (m := N.of_nat (S i)) by lia.
    replace (N.of_nat i + 1) with (N.of_nat (S i)) by lia.
    rewrite (IH fuel) by (done || cbn [length] in *; lia).
    reflexivity.
Qed.

(** X8: [for_each_indexed] drains the stream and calls the function once on
    every element, in pull order, with the position of the element in the
    stream as index, counted from 0; the number of elements is at most the
    range of [size_t]. *)
Theorem for_each_indexed_positions {W : Type} (function : T → N → W → W) (world : W)
    (fuel : nat) (s s' : IMPL) (l : list T) :
  yields s l s' → (length l ≤ fuel)%nat →
  N.of_nat (length l) ≤ SIZE_MODULUS →
  for_each_indexed fuel function world s
  = Some (fold_left (λ w iy, function iy.2 (N.of_nat iy.1) w)
            (zip (seq 0 (length l)) l) world, s').
Proof.
  intros Hy Hf Hl. unfold for_each_indexed. destruct l as [|x l].
  - apply yields_nil in Hy. rewrite Hy. by destruct fuel.
  - apply yields_cons in Hy as (s1 & Hs & Hy). rewrite Hs.
    change 0 with (N.of_nat 0).
    by rewrite (for_each_indexed_loop_yields function l s').
Qed.

End Draining.

(** ** Matching *)

Section Matching.
Import streams.
Context {IMPL T : Type} `{!Streamable IMPL T}.

Lemma pulls_S_inv (n : nat) (s s1 : IMPL) (e : option T) (rest : list (option T)) :
  pulls (S n) s = (e :: rest, s1) →
  ∃ s2 : IMPL, next s = (e, s2) ∧ pulls n s2 = (rest, s1).
Proof.
  rewrite pulls_S. destruct (next s) as [e' s2]. cbn [fst snd].
  destruct (pulls n s2) as [rest' s3] eqn:E. cbn [fst snd].
  intros Heq. injection Heq as -> -> ->. exists s2. by rewrite E.
Qed.

Lemma none_match_loop_any (predicate : T → bool) (fuel : nat) :
  ∀ (element : option T) (s : IMPL),
    none_match_loop fuel predicate element s
    = prod_map negb id <$> any_match_loop fuel predicate element s.
Proof.
  induction fuel as [|fuel IH]; intros [x|] s; cbn [none_match_loop any_match_loop];
    try reflexivity; destruct (predicate x); try reflexivity.
  destruct (next s) as [e s1]. apply IH.
Qed.

Lemma all_match_loop_none (predicate : T → bool) (fuel : nat) :
  ∀ (element : option T) (s : IMPL),
    all_match_loop fuel predicate element s
    = none_match_loop fuel (λ x, negb (predicate x)) element s.
Proof.
  induction fuel as [|fuel IH]; intros [x|] s; cbn [none_match_loop all_match_loop];
    try reflexivity; destruct (negb (predicate x)); try reflexivity.
  destruct (next s) as [e s1]. apply IH.
Qed.

Lemma match_operations_agree (predicate : T → bool) (fuel : nat) (s : IMPL) :
  none_match fuel predicate s = prod_map negb id <$> any_match fuel predicate s
  ∧ all_match fuel predicate s = none_match fuel (λ x, negb (predicate x)) s.
Proof.
  unfold none_match, any_match, all_match. destruct (next s) as [e s1]. split.
  - apply none_match_loop_any.
  - apply all_match_loop_none.
Qed.

(** X9: the three matching operations are one operation.  For every
    predicate, fuel and stream, [none_match] pulls what [any_match] pulls
    and returns the negated answer, and [all_match] is [none_match] of the
    negated predicate. *)
Theorem match_duality (predicate : T → bool) (fuel : nat) (s : IMPL) :
  none_match fuel predicate s = prod_map negb id <$> any_match fuel predicate s
  ∧ all_match fuel predicate s = none_match fuel (λ x, negb (predicate x)) s.
Proof. apply match_operations_agree. Qed.

Lemma any_match_loop_yields (predicate : T → bool) (l : list T) (s' : IMPL) :
  ∀ (fuel : nat) (x : T) (s : IMPL),
    yields s l s' → (length l < fuel)%nat →
    ∃ after : IMPL,
      any_match_loop fuel predicate (Some x) s = Some (existsb predicate (x :: l), after)
      ∧ (existsb predicate (x :: l) = false → after = s').
Proof.
  induction l as [|y l IH]; intros fuel x s Hy Hf;
    (destruct fuel as [|fuel]; [cbn [length] in Hf; lia|]);
    cbn [any_match_loop existsb]; destruct (predicate x) eqn:Hx;
    try (exists s; split; [reflexivity | discriminate]); cbn [orb].
  - apply yields_nil in Hy. rewrite Hy. exists s'. by destruct fuel.
  - apply yields_cons in Hy as (s1 & Hs & Hy). rewrite Hs.
    apply (IH fuel y s1 Hy). cbn [length] in Hf. lia.
Qed.

Lemma any_match_yields (predicate : T → bool) (fuel : nat) (s s' : IMPL) (l : list T) :
  yields s l s' → (length l ≤ fuel)%nat →
  ∃ after : IMPL,
    any_match fuel predicate s = Some (existsb predicate l, after)
    ∧ (existsb predicate l = false → after = s').
Proof.
  intros Hy Hf. unfold any_match. destruct l as [|x l].
  - apply yields_nil in Hy. rewrite Hy. exists s'. by destruct fuel.
  - apply yields_cons in Hy as (s1 & Hs & Hy). rewrite Hs.
    by apply (any_match_loop_yields predicate l s').
Qed.

Lemma existsb_negb_forallb (predicate : T → bool) (l : list T) :
  negb (existsb (λ x, negb (predicate x)) l) = forallb predicate l.
Proof.
  induction l as [|x l IH]; [reflexivity|]. cbn [existsb forallb].
  rewrite <- IH. by destruct (predicate x).
Qed.

(** X10: on a finite stream, [any_match] answers whether some element
    satisfies the predicate, [all_match] whether every element does and
    [none_match] whether no element does; on an empty stream they answer
    false, true and true.  When no element decides the answer early, the
    stream is drained. *)
Theorem match_answers (predicate : T → bool) (fuel : nat) (s s' : IMPL) (l : list T) :
  yields s l s' → (length l ≤ fuel)%nat →
  ∃ a b c : IMPL,
    any_match fuel predicate s = Some (existsb predicate l, a)
    ∧ all_match fuel predicate s = Some (forallb predicate l, b)
    ∧ none_match fuel predicate s = Some (negb (existsb predicate l), c)
    ∧ (existsb predicate l = false → a = s' ∧ c = s')
    ∧ (forallb predicate l = true → b = s').
Proof.
  intros Hy Hf.
  destruct (any_match_yields predicate fuel s s' l Hy Hf) as (a & Ha & Has).
  destruct (any_match_yields (λ x, negb (predicate x)) fuel s s' l Hy Hf)
    as (b & Hb & Hbs).
  exists a, b, a.
  destruct (match_operations_agree predicate fuel s) as [Hnone Hall].
  destruct (match_operations_agree (λ x, negb (predicate x)) fuel s) as [Hnone' _].
  rewrite Hall, Hnone', Hnone, Ha, Hb. cbn.
  rewrite existsb_negb_forallb.
  repeat split; auto.
  intros Hfa. apply Hbs. rewrite <- existsb_negb_forallb in Hfa.
  by destruct (existsb (λ x, negb (predicate x)) l).
Qed.

Lemma any_match_loop_hit (predicate : T → bool) (fuel : nat) (x : T) (s : IMPL) :
  predicate x = true → any_match_loop fuel predicate (Some x) s = Some (true, s).
Proof. intros Hx. destruct fuel; cbn [any_match_loop]; by rewrite Hx. Qed.

Lemma any_match_loop_first (predicate : T → bool) (x : T) (s1 : IMPL) :
  predicate x = true →
  ∀ (q : list T) (fuel : nat) (y : T) (s : IMPL),
    pulls (S (length q)) s = (Some <$> (q ++ [x]), s1) →
    predicate y = false → Forall (λ z, predicate z = false) q →
    (length q < fuel)%nat →
    any_match_loop fuel predicate (Some y) s = Some (true, s1).
Proof.
  intros Hx. induction q as [|z q IH]; intros fuel y s Hp Hy Hq Hf;
    (destruct fuel as [|fuel]; [cbn [length] in Hf; lia|]);
    cbn [any_match_loop]; rewrite Hy;
    cbn [length app fmap list_fmap] in Hp;
    apply pulls_S_inv in Hp as (s2 & Hs & Hp); rewrite Hs.
  - simpl in Hp. injection Hp as ->. by apply any_match_loop_hit.
  - apply Forall_cons in Hq as [Hz Hq].
    apply IH; [done | done | done | cbn [length] in Hf; lia].
Qed.

Lemma any_match_first (predicate : T → bool) (fuel : nat) (s s1 : IMPL)
    (pre : list T) (x : T) :
  pulls (S (length pre)) s = (Some <$> (pre ++ [x]), s1) →
  (length pre ≤ fuel)%nat →
  Forall (λ z, predicate z = false) pre → predicate x = true →
  any_match fuel predicate s = Some (true, s1).
Proof.
  intros Hp Hf Hpre Hx. unfold any_match. destruct pre as [|y q];
    cbn [length app fmap list_fmap] in Hp;
    apply pulls_S_inv in Hp as (s2 & Hs & Hp); rewrite Hs.
  - simpl in Hp. injection Hp as ->. by apply any_match_loop_hit.
  - apply Forall_cons in Hpre as [Hy Hq].
    by apply (any_match_loop_first predicate x s1 Hx q).
Qed.

(** X11: the matching operations stop at the first decisive element, also
    on a stream that holds more elements than will ever be pulled.  When the
    stream begins with the elements [pre] followed by [x], [x] being the
    first element that satisfies the predicate (for [all_match]: the first
    that violates it), the answer is returned in the state the stream is in
    right after [x] was pulled, so every later element is still in the
    stream. *)
Theorem match_short_circuit (predicate : T → bool) (fuel : nat) (s s1 : IMPL)
    (pre : list T) (x : T) :
  pulls (S (length pre)) s = (Some <$> (pre ++ [x]), s1) →
  (length pre ≤ fuel)%nat →
  (Forall (λ z, predicate z = false) pre → predicate x = true →
   any_match fuel predicate s = Some (true, s1)
   ∧ none_match fuel predicate s = Some (false, s1))
  ∧ (Forall (λ z, predicate z = true) pre → predicate x = false →
     all_match fuel predicate s = Some (false, s1)).
Proof.
  intros Hp Hf. split.
  - intros Hpre Hx.
    pose proof (any_match_first predicate fuel s s1 pre x Hp Hf Hpre Hx) as Hany.
    split; [exact Hany|].
    destruct (match_operations_agree predicate fuel s) as [-> _]. by rewrite Hany.
  - intros Hpre Hx.
    destruct (match_operations_agree predicate fuel s) as [_ ->].
    destruct (match_operations_agree (λ z, negb (predicate z)) fuel s) as [-> _].
    rewrite (any_match_first (λ z, negb (predicate z)) fuel s s1 pre x Hp Hf);
      [reflexivity | | by rewrite Hx].
    eapply Forall_impl; [exact Hpre|]. intros z Hz. cbn. by rewrite Hz.
Qed.

End Matching.

(** ** Collecting into a mapping *)

Section CollectMap.
Import streams.
Context {IMPL T : Type} `{!Streamable IMPL T}.
Context {K V : Type} `{Countable K}.
Context (key_mapper : T → K) (value_mapper : T → V).

Lemma collect_map_loop_yields (l : list T) (s' : IMPL) :
  ∀ (fuel : nat) (result : gmap K V) (x : T) (s : IMPL),
    yields s l s' → (length l < fuel)%nat →
    collect_map_loop fuel key_mapper value_mapper result (Some x) s
    = Some (fold_left (λ m y, <[key_mapper y := value_mapper y]> m) (x :: l) result, s').
Proof.
  induction l as [|y l IH]; intros fuel result x s Hy Hf;
    (destruct fuel as [|fuel]; [cbn [length] in Hf; lia|]); cbn [collect_map_loop].
  - apply yields_nil in Hy. rewrite Hy. by destruct fuel.
  - apply yields_cons in Hy as (s1 & Hs & Hy). rewrite Hs.
    by rewrite (IH fuel) by (done || cbn [length] in Hf; lia).
Qed.

Lemma fold_insert_lookup (k : K) (l : list T) :
  ∀ m : gmap K V,
    fold_left (λ m y, <[key_mapper y := value_mapper y]> m) l m !! k
    = match last (filter (λ y, key_mapper y = k) l) with
      | Some y => Some (value_mapper y)
      | None => m !! k
      end.
Proof.
  induction l as [|x l IH]; intros m; [reflexivity|].
  cbn [fold_left]. rewrite IH, filter_cons. case_decide as Hk.
  - rewrite last_cons. destruct (last (filter (λ y, key_mapper y = k) l)); [done|].
    by rewrite <- Hk, lookup_insert_eq.
  - destruct (last (filter (λ y, key_mapper y = k) l)); [done|].
    by rewrite lookup_insert_ne.
Qed.

(** X12: [collect_map] drains the stream and returns a mapping in which a
    key is bound exactly when some element is mapped to it, and is then
    bound to the value of the last such element: a later element overwrites
    an earlier one with the same key. *)
Theorem collect_map_last_wins (fuel : nat) (s s' : IMPL) (l : list T) :
  yields s l s' → (length l ≤ fuel)%nat →
  ∃ result : gmap K V,
    collect_map fuel key_mapper value_mapper s = Some (result, s')
    ∧ ∀ k : K,
        result !! k = value_mapper <$> last (filter (λ y, key_mapper y = k) l).
Proof.
  intros Hy Hf. unfold collect_map. destruct l as [|x l].
  - apply yields_nil in Hy. rewrite Hy. exists ∅. split; [by destruct fuel|].
    intros k. by rewrite lookup_empty.
  - apply yields_cons in Hy as (s1 & Hs & Hy). rewrite Hs.
    rewrite (collect_map_loop_yields l s') by done.
    eexists. split; [reflexivity|]. intros k. rewrite fold_insert_lookup.
    destruct (last (filter (λ y, key_mapper y = k) (x :: l))); [done|].
    by rewrite lookup_empty.
Qed.

End CollectMap.

(** ** Skipping, composed *)

Section SkipComposed.
Import streams.
Context {IMPL T : Type} `{!Streamable IMPL T}.


(** X14: [find_first] after [skip(n)] is the element at position [n] of the
    stream, Absent when the stream has exactly [n] elements. *)
Theorem find_first_after_skip (n : N) (s s' : IMPL) (l : list T) :
  yields s l s' → (N.to_nat n ≤ length l)%nat →
  (find_first (skip n s)).1 = l !! N.to_nat n.
Proof.
  intros Hy Hn. unfold skip, find_first.
  rewrite (skip_loop_yields (N.to_nat n) s' s l Hy), Nat.min_l by lia.
  destruct (yields_pulls_prefix (N.to_nat n) s s' l Hy Hn) as [_ Hd].
  rewrite <- (Nat.add_0_r (N.to_nat n)) at 2. rewrite <- lookup_drop.
  destruct (drop (N.to_nat n) l) as [|x r].
  - apply yields_nil in Hd. by rewrite Hd.
  - apply yields_cons in Hd as (s1 & Hs & _). by rewrite Hs.
Qed.

(** X15: skipping more elements than the stream holds leaves a pipeline on
    which, when it honours the exhaustion contract, the terminal operations
    return their empty results. *)
Theorem skip_past_end_is_empty (n : N) (fuel : nat) (s s' : IMPL) (l : list T) :
  stays_exhausted IMPL → yields s l s' → (length l < N.to_nat n)%nat →
  skip n s = s'
  ∧ (find_first (skip n s)).1 = None
  ∧ count fuel (skip n s) = Some (0, (next s').2)
  ∧ collect fuel (skip n s) = Some ([], (next s').2)
  ∧ find_last fuel (skip n s) = Some (None, (next s').2).
Proof.
  intros Hc Hy Hn.
  assert (skip n s = s') as ->.
  { unfold skip. rewrite (skip_loop_yields (N.to_nat n) s' s l Hy), Nat.min_r by lia.
    unfold yields in Hy. by rewrite Hy. }
  assert ((next s').1 = None) as Hs'.
  { apply drained_next; [done|]. exists (pulls (length l) s).2.
    by apply yields_pulls_all. }
  unfold find_first.
  by rewrite count_exhausted, collect_exhausted, find_last_exhausted.
Qed.

End SkipComposed.

(** ** The further properties on concrete pipelines *)

Lemma count_is_length_witness :
  streams.count 3 (three 1 2 3)
  = Some (N.of_nat (length [1; 2; 3]%Z) mod SIZE_MODULUS, (pulls 4 (three 1 2 3)).2)
  ∧ streams.count 3 (three 1 2 3)
    = Some (N.of_nat (length [1; 2; 3]%Z), (pulls 4 (three 1 2 3)).2).
Proof.
  destruct (count_is_length 3 (three 1 2 3) (pulls 4 (three 1 2 3)).2 [1; 2; 3]%Z)
    as [Hmod Hsmall].
  - reflexivity.
  - cbn [length]. lia.
  - split; [exact Hmod | apply Hsmall; reflexivity].
Defined.

Lemma find_last_is_last_witness :
  streams.find_last 3 (three 1 2 3)
  = Some (last [1; 2; 3]%Z, (pulls 4 (three 1 2 3)).2).
Proof.
  apply (find_last_is_last 3 (three 1 2 3) (pulls 4 (three 1 2 3)).2 [1; 2; 3]%Z).
  - reflexivity.
  - cbn [length]. lia.
Defined.

Lemma collect_is_elements_witness :
  streams.collect 3 (three 1 2 3) = Some ([1; 2; 3]%Z, (pulls 4 (three 1 2 3)).2).
Proof.
  apply (collect_is_elements 3 (three 1 2 3) (pulls 4 (three 1 2 3)).2 [1; 2; 3]%Z).
  - reflexivity.
  - cbn [length]. lia.
Defined.

Lemma for_each_in_order_witness :
  streams.for_each 3 (λ (x : Z) (seen : list Z), seen ++ [x]) [] (three 1 2 3)
  = Some (fold_left (λ seen y, seen ++ [y]) [1; 2; 3]%Z [], (pulls 4 (three 1 2 3)).2).
Proof.
  apply (for_each_in_order (λ (x : Z) (seen : list Z), seen ++ [x]) [] 3
           (three 1 2 3) (pulls 4 (three 1 2 3)).2 [1; 2; 3]%Z).
  - reflexivity.
  - cbn [length]. lia.
Defined.

Lemma for_each_indexed_positions_witness :
  streams.for_each_indexed 3 (λ (x : Z) (i : N) (seen : list (N * Z)), seen ++ [(i, x)])
    [] (three 1 2 3)
  = Some (fold_left (λ (seen : list (N * Z)) (iy : nat * Z), seen ++ [(N.of_nat iy.1, iy.2)])
            (zip (seq 0 (length [1; 2; 3]%Z)) [1; 2; 3]%Z) [],
          (pulls 4 (three 1 2 3)).2).
Proof.
  apply (for_each_indexed_positions
           (λ (x : Z) (i : N) (seen : list (N * Z)), seen ++ [(i, x)]) [] 3
           (three 1 2 3) (pulls 4 (three 1 2 3)).2 [1; 2; 3]%Z).
  - reflexivity.
  - cbn [length]. lia.
  - by vm_compute.
Defined.

Lemma match_answers_witness :
  ∃ a b c,
    streams.any_match 3 (Z.ltb 5) (three 1 2 3) = Some (existsb (Z.ltb 5) [1; 2; 3]%Z, a)
    ∧ streams.all_match 3 (Z.ltb 5) (three 1 2 3) = Some (forallb (Z.ltb 5) [1; 2; 3]%Z, b)
    ∧ streams.none_match 3 (Z.ltb 5) (three 1 2 3)
      = Some (negb (existsb (Z.ltb 5) [1; 2; 3]%Z), c)
    ∧ (existsb (Z.ltb 5) [1; 2; 3]%Z = false
       → a = (pulls 4 (three 1 2 3)).2 ∧ c = (pulls 4 (three 1 2 3)).2)
    ∧ (forallb (Z.ltb 5) [1; 2; 3]%Z = true → b = (pulls 4 (three 1 2 3)).2).
Proof.
  apply (match_answers (Z.ltb 5) 3 (three 1 2 3) (pulls 4 (three 1 2 3)).2 [1; 2; 3]%Z).
  - reflexivity.
  - cbn [length]. lia.
Defined.

Lemma match_short_circuit_witness :
  (streams.any_match 1 (Z.ltb 1) (three 1 2 3) = Some (true, (pulls 2 (three 1 2 3)).2)
   ∧ streams.none_match 1 (Z.ltb 1) (three 1 2 3)
     = Some (false, (pulls 2 (three 1 2 3)).2))
  ∧ streams.all_match 1 (Z.geb 1) (three 1 2 3) = Some (false, (pulls 2 (three 1 2 3)).2).
Proof.
  split.
  - destruct (match_short_circuit (Z.ltb 1) 1 (three 1 2 3)
                (pulls 2 (three 1 2 3)).2 [1%Z] 2%Z) as [Hany _];
      [reflexivity | apply le_n |].
    apply Hany; [repeat constructor | reflexivity].
  - destruct (match_short_circuit (Z.geb 1) 1 (three 1 2 3)
                (pulls 2 (three 1 2 3)).2 [1%Z] 2%Z) as [_ Hall];
      [reflexivity | apply le_n |].
    apply Hall; [repeat constructor | reflexivity].
Defined.

Lemma collect_map_last_wins_witness :
  ∃ result : gmap Z Z,
    streams.collect_map 3 (λ x, x mod 2)%Z (λ x, 10 * x)%Z (three 1 2 3)
    = Some (result, (pulls 4 (three 1 2 3)).2)
    ∧ ∀ k : Z,
        result !! k
        = (λ x, 10 * x)%Z <$> last (filter (λ y, (y mod 2)%Z = k) [1; 2; 3]%Z).
Proof.
  apply (collect_map_last_wins (λ x, x mod 2)%Z (λ x, 10 * x)%Z 3 (three 1 2 3)
           (pulls 4 (three 1 2 3)).2 [1; 2; 3]%Z).
  - reflexivity.
  - cbn [length]. lia.
Defined.


Lemma find_first_after_skip_witness :
  (streams.find_first (streams.skip 2 (three 1 2 3))).1 = [1; 2; 3]%Z !! N.to_nat 2.
Proof.
  apply (find_first_after_skip 2 (three 1 2 3) (pulls 4 (three 1 2 3)).2 [1; 2; 3]%Z).
  - reflexivity.
  - cbn. lia.
Defined.

Lemma skip_past_end_is_empty_witness :
  streams.skip 9 (streams.counting 3%Z 2) = (pulls 3 (streams.counting 3%Z 2)).2
  ∧ (streams.find_first (streams.skip 9 (streams.counting 3%Z 2))).1 = None
  ∧ streams.count 0 (streams.skip 9 (streams.counting 3%Z 2))
    = Some (0, (next (pulls 3 (streams.counting 3%Z 2)).2).2)
  ∧ streams.collect 0 (streams.skip 9 (streams.counting 3%Z 2))
    = Some ([], (next (pulls 3 (streams.counting 3%Z 2)).2).2)
  ∧ streams.find_last 0 (streams.skip 9 (streams.counting 3%Z 2))
    = Some (None, (next (pulls 3 (streams.counting 3%Z 2)).2).2).
Proof.
  apply (skip_past_end_is_empty 9 0 (streams.counting 3%Z 2)
           (pulls 3 (streams.counting 3%Z 2)).2 [3; 3]%Z).
  - exact counting_basic_stays_exhausted.
  - reflexivity.
  - cbn. lia.
Defined.
